(** * search.py: the aspect catalogue, its normalisation and its queries

    A shallow embedding of [Item.from_raw], [load_aspects] and
    [search_aspects] of [search.py], with the properties of the record
    normaliser and of the query engine.

    Python objects that the program shares and mutates (the [Item]
    instances, and the list objects handed between the functions) live in
    an explicit heap.  Strings and integers are immutable, the [aspects]
    dictionary and the [data] list of an [Item] are owned by that [Item],
    and the lists and the dictionary that a function builds for itself
    ([raw], [out], [searches]) are not seen outside it: these are carried
    by value.  A character of a string is a code point below 256, and
    [int] has the limit of 4300 digits that the interpreter sets by
    default. *)

From Stdlib Require Import ZArith String Ascii List Lia.
From stdpp Require Import base option list gmap strings fin_maps.
From stdpp Require Import sorting.

Local Open Scope string_scope.
Local Open Scope Z_scope.
Local Open Scope nat_scope.
Local Open Scope list_scope.

(** ** Python string builtins used by the program *)

Module PyStr.

(** [s.startswith(pre)] *)
Fixpoint startswith (s pre : string) : bool :=
  match pre, s with
  | EmptyString, _ => true
  | String _ _, EmptyString => false
  | String a pre', String b s' =>
      if Ascii.eqb a b then startswith s' pre' else false
  end.

(** [s[n:]] *)
Fixpoint drop (n : nat) (s : string) : string :=
  match n, s with
  | O, _ => s
  | S _, EmptyString => EmptyString
  | S n', String _ s' => drop n' s'
  end.

(** [sub in s] *)
Fixpoint occurs (sub s : string) : bool :=
  startswith s sub
  || match s with
     | EmptyString => false
     | String _ s' => occurs sub s'
     end.

(** [s.endswith(suf)] *)
Fixpoint endswith (s suf : string) : bool :=
  String.eqb s suf
  || match s with
     | EmptyString => false
     | String _ s' => endswith s' suf
     end.

(** [s.partition(sep)] for a non-empty [sep]: the text before the first
    occurrence of [sep], [sep] itself and the text after it; [(s, "", "")]
    when [sep] does not occur. *)
Fixpoint partition (sep s : string) : string * string * string :=
  if startswith s sep then (EmptyString, sep, drop (String.length sep) s)
  else match s with
       | EmptyString => (EmptyString, EmptyString, EmptyString)
       | String c s' =>
           let '(a, m, b) := partition sep s' in (String c a, m, b)
       end.

(** [str.split(s, " ", 1)]: one element when [s] has no space, otherwise
    the text before the first space and the text after it. *)
Definition split1 (s : string) : list string :=
  match partition " " s with
  | (a, EmptyString, _) => [a]
  | (a, String _ _, b) => [a; b]
  end.

(** White space skipped by [int] around the number: the ASCII characters
    9 to 13 and 32, and the Latin-1 spaces 133 and 160. *)
Definition is_space (c : ascii) : bool :=
  let n := nat_of_ascii c in
  ((9 <=? n) && (n <=? 13)) || (n =? 32) || (n =? 133) || (n =? 160).

Fixpoint lstrip (s : string) : string :=
  match s with
  | String c s' => if is_space c then lstrip s' else s
  | EmptyString => EmptyString
  end.

Fixpoint rstrip (s : string) : string :=
  match s with
  | EmptyString => EmptyString
  | String c s' =>
      match rstrip s' with
      | EmptyString => if is_space c then EmptyString else String c EmptyString
      | r => String c r
      end
  end.

Definition digit_val (c : ascii) : option Z :=
  let n := nat_of_ascii c in
  if (48 <=? n) && (n <=? 57) then Some (Z.of_nat (n - 48)) else None.

(** Decimal digits, where a single underscore may stand between two
    digits.  [prev] tells whether the previous character was a digit. *)
Fixpoint digits (acc : Z) (prev : bool) (s : string) : option Z :=
  match s with
  | EmptyString => if prev then Some acc else None
  | String c s' =>
      match digit_val c with
      | Some d => digits (10 * acc + d)%Z true s'
      | None =>
          if Ascii.eqb c "_" && prev then digits acc false s' else None
      end
  end.

(** The number of digits that [int] counts before it converts: those of
    the longest prefix of digits and underscores. *)
Fixpoint scanned (s : string) : Z :=
  match s with
  | EmptyString => 0%Z
  | String c s' =>
      match digit_val c with
      | Some _ => (1 + scanned s')%Z
      | None => if Ascii.eqb c "_" then scanned s' else 0%Z
      end
  end.

(** [sys.get_int_max_str_digits()]: the program keeps the default. *)
Definition int_max_str_digits : Z := 4300.

(** The number after the sign.  A text with more digits than the limit is
    refused, also when the digits are zeros. *)
Definition unsigned (s : string) : option Z :=
  if (int_max_str_digits <? scanned s)%Z then None else digits 0 false s.

(** [int(s)] in base ten; [None] stands for [ValueError]. *)
Definition int (s : string) : option Z :=
  match rstrip (lstrip s) with
  | EmptyString => None
  | String c r =>
      if Ascii.eqb c "+" then unsigned r
      else if Ascii.eqb c "-" then Z.opp <$> unsigned r
      else unsigned (String c r)
  end.

End PyStr.

(** ** The data model *)

(** The dataclass [Item].  Equality of two [aspects] dictionaries does not
    depend on insertion order, which is what equality of [gmap]s is. *)
Record Item : Type := mkItem {
  item : string;
  data : option (list string);
  aspects : gmap string Z;
}.

Global Instance Item_eq_dec : EqDecision Item.
Proof. solve_decision. Defined.

(** The [__eq__] that [@dataclass] generates: the tuples of fields are
    compared. *)
Definition Item_eqb (a b : Item) : bool :=
  bool_decide (item a = item b) && bool_decide (data a = data b)
  && bool_decide (aspects a = aspects b).

(** ** Heap, exceptions and the monad of the program *)

(** Locations are natural numbers: the heap is the list of the objects
    created so far. *)
Abbreviation loc := nat.

Inductive Obj : Type :=
| ItemO (it : Item)
| ListO (xs : list loc).

Abbreviation Heap := (list Obj).

Inductive Exn : Type := IndexError | ValueError | AttributeError | TypeError.

Definition M (A : Type) : Type := Heap → Exn + (A * Heap).

Global Instance M_ret : MRet M := λ A x h, inr (x, h).
Global Instance M_bind : MBind M := λ A B f m h,
  match m h with
  | inl e => inl e
  | inr (x, h') => f x h'
  end.

Definition raise {A} (e : Exn) : M A := λ _, inl e.

(** A new object gets the next free location. *)
Definition alloc (o : Obj) : M loc := λ h, inr (length h, h ++ [o]).

(** Reading the fields of the [Item] at [l]. *)
Definition read_item (l : loc) : M Item := λ h,
  match h !! l with
  | Some (ItemO it) => inr (it, h)
  | _ => inl AttributeError
  end.

(** Iterating over the list object at [l]. *)
Definition read_list (l : loc) : M (list loc) := λ h,
  match h !! l with
  | Some (ListO xs) => inr (xs, h)
  | _ => inl TypeError
  end.

(** [l.data = d] *)
Definition set_data (l : loc) (d : option (list string)) : M unit := λ h,
  match h !! l with
  | Some (ItemO it) =>
      inr (tt, <[l := ItemO (mkItem (item it) d (aspects it))]> h)
  | _ => inl AttributeError
  end.

(** A [for] loop that threads the state [s] through its body. *)
Fixpoint for_each {A S} (body : S → A → M S) (s : S) (xs : list A) : M S :=
  match xs with
  | [] => mret s
  | x :: xs' => s' ← body s x; for_each body s' xs'
  end.

(** [list(map(f, xs))] *)
Fixpoint map_list {A B} (f : A → M B) (xs : list A) : M (list B) :=
  match xs with
  | [] => mret []
  | x :: xs' => y ← f x; ys ← map_list f xs'; mret (y :: ys)
  end.

(** ** [Item.from_raw] *)

(** One step of the dictionary comprehension
    [{split[1]: int(split[0]) for split in ...}]: the key is evaluated
    before the value. *)
Definition weight (x : string) : Exn + (string * Z) :=
  let split := PyStr.split1 x in
  match split !! 1 with
  | None => inl IndexError
  | Some k =>
      match split !! 0 with
      | None => inl IndexError
      | Some n =>
          match PyStr.int n with
          | None => inl ValueError
          | Some z => inr (k, z)
          end
      end
  end.

(** The comprehension fills the dictionary [d] from left to right and
    stops at the first exception. *)
Fixpoint dict_comp (asp : list string) (d : gmap string Z) : Exn + gmap string Z :=
  match asp with
  | [] => inr d
  | x :: asp' =>
      match weight x with
      | inl e => inl e
      | inr (k, z) => dict_comp asp' (<[k := z]> d)
      end
  end.

(** The fields of the [Item] that [from_raw] builds. *)
Definition raw_fields (name : string) (asp : list string) : Exn + Item :=
  let '(name', _, dat) := PyStr.partition " --- " name in
  match dict_comp asp ∅ with
  | inl e => inl e
  | inr a =>
      inr (mkItem name'
             (match dat with EmptyString => None | _ => Some [dat] end) a)
  end.

Definition from_raw (name : string) (asp : list string) : M loc :=
  match raw_fields name asp with
  | inl e => raise e
  | inr it => alloc (ItemO it)
  end.

(** ** [load_aspects] *)

(** The dictionary [out], in insertion order. *)
Fixpoint dict_get {V} (d : list (string * V)) (k : string) : option V :=
  match d with
  | [] => None
  | (k', v) :: d' => if decide (k' = k) then Some v else dict_get d' k
  end.

(** [d[k] = v]: a present key keeps its place, a new key goes last. *)
Fixpoint dict_set {V} (d : list (string * V)) (k : string) (v : V)
  : list (string * V) :=
  match d with
  | [] => [(k, v)]
  | (k', v') :: d' =>
      if decide (k' = k) then (k, v) :: d' else (k', v') :: dict_set d' k v
  end.

(** The loop [for v in vl] with its [break]; the result is [found].  An
    entry [v] with other attributes is skipped; in the first entry with
    the attributes of [x], and in [x], an absent [data] becomes
    [['None']], and [v.data += item.data] appends the variants of [x]. *)
Fixpoint merge_into (vl : list loc) (x : loc) : M bool :=
  match vl with
  | [] => mret false
  | v :: vl' =>
      vo ← read_item v;
      xo ← read_item x;
      if bool_decide (aspects vo ≠ aspects xo) then merge_into vl' x
      else
        _ ← (match data vo with
             | None => set_data v (Some ["None"])
             | Some _ => mret tt
             end);
        xo ← read_item x;
        _ ← (match data xo with
             | None => set_data x (Some ["None"])
             | Some _ => mret tt
             end);
        vo ← read_item v;
        xo ← read_item x;
        match data vo, data xo with
        | Some dv, Some dx => _ ← set_data v (Some (dv ++ dx)); mret true
        | _, _ => raise TypeError
        end
  end.

(** The body of the loop [for item in raw]. *)
Definition dedupe (out : list (string * list loc)) (x : loc)
  : M (list (string * list loc)) :=
  xo ← read_item x;
  match dict_get out (item xo) with
  | Some vl =>
      found ← merge_into vl x;
      if found : bool then mret out
      else mret (dict_set out (item xo) (vl ++ [x]))
  | None => mret (dict_set out (item xo) [x])
  end.

(** [item_dict] is given by its items, in insertion order. *)
Definition load_aspects (item_dict : list (string * list string)) : M loc :=
  raw ← map_list (λ pair, from_raw pair.1 pair.2) item_dict;
  out ← for_each dedupe [] raw;
  alloc (ListO (concat (snd <$> out))).

(** ** [search_aspects] *)

(** [x in out]: an element that is [x], or that equals [x]. *)
Fixpoint contains (out : list loc) (x : loc) : M bool :=
  match out with
  | [] => mret false
  | e :: out' =>
      if decide (e = x) then mret true
      else
        eo ← read_item e;
        xo ← read_item x;
        if Item_eqb eo xo then mret true else contains out' x
  end.

(** [all(a in i.aspects for a in search)] *)
Definition has_all (search : list string) (it : Item) : bool :=
  forallb (λ a, bool_decide (is_Some (aspects it !! a))) search.

(** [len(i.aspects) == len(search)] *)
Definition same_len (search : list string) (it : Item) : bool :=
  bool_decide (size (aspects it) = length search).

(** One turn of the loop [for search in searches]: the filters are lazy,
    so every entry that passes them is tested against the list [out] as it
    stands when the entry is reached. *)
Definition extend_found (items : loc) (perfect : bool) (out : list loc)
    (search : list string) : M (list loc) :=
  xs ← read_list items;
  for_each (λ out i,
    io ← read_item i;
    if has_all search io then
      if (if perfect then same_len search io else true) then
        b ← contains out i;
        mret (if b : bool then out else out ++ [i])
      else mret out
    else mret out) out xs.

Definition searches (to_find : list string) (or_find : bool)
  : list (list string) :=
  if or_find then (λ x, [x]) <$> to_find else [to_find].

Definition search_aspects (to_find : list string) (items : loc)
    (or_find perfect : bool) : M loc :=
  out ← for_each (extend_found items perfect) [] (searches to_find or_find);
  alloc (ListO out).

(** ** [list_aspects] *)

(** [list(a.aspects.keys())]; the set that [list_aspects] builds forgets
    the order of the keys. *)
Definition keys_of (it : Item) : list string := (map_to_list (aspects it)).*1.

(** The set of the keys of all the entries: [set] of the chained lists
    [list(a.aspects.keys()) for a in items]. *)
Definition list_aspects (items : loc) : M (gset string) :=
  xs ← read_list items;
  keys ← map_list (λ a, io ← read_item a; mret (keys_of io)) xs;
  mret (list_to_set (concat keys)).

(** ** The vocabulary of the properties *)

(** The [Item] stored at [l], if any. *)
Definition val (h : Heap) (l : loc) : option Item :=
  match h !! l with
  | Some (ItemO it) => Some it
  | _ => None
  end.

(** Every element of [xs] refers to an [Item]. *)
Definition entries (h : Heap) (xs : list loc) : Prop :=
  Forall (λ l, is_Some (val h l)) xs.

(** The entry [l] passes the filters of the group [search]. *)
Definition passes (search : list string) (perfect : bool) (it : Item) : bool :=
  has_all search it && (if perfect then same_len search it else true).

Definition matches (h : Heap) (search : list string) (perfect : bool)
    (l : loc) : Prop :=
  ∃ it, val h l = Some it ∧ passes search perfect it = true.

(** [l] stands in [xs] and no entry before it has the same fields. *)
Definition first_of (h : Heap) (xs : list loc) (l : loc) : Prop :=
  ∃ pre post, xs = pre ++ l :: post ∧ ∀ l', l' ∈ pre → val h l' ≠ val h l.

(** The name and the attributes of an entry: what [load_aspects] groups
    the records by. *)
Definition cls (it : Item) : string * gmap string Z := (item it, aspects it).

(** The variants of a record, the marker standing for none. *)
Definition marker (it : Item) : list string := default ["None"] (data it).

(** The variants of the entry that stands for the records [rs], given in
    input order: those of a single record as they are, those of several
    records one after the other with their markers. *)
Definition variants (rs : list Item) : option (list string) :=
  match rs with
  | [r] => data r
  | _ => Some (concat (marker <$> rs))
  end.

(** The name and the attributes that the record at [l] was built with. *)
Definition cls_at (h1 : Heap) (l : loc) : option (string * gmap string Z) :=
  cls <$> val h1 l.

(** The records among [pre] that have the name and the attributes of
    [l], in their order. *)
Definition members (h1 : Heap) (pre : list loc) (l : loc) : list Item :=
  omap (val h1) (filter (λ l', cls_at h1 l' = cls_at h1 l) pre).

(** What holds when the records [pre] have been visited; [h1] is the heap
    in which the loop starts. *)
Record dedupe_inv (h1 : Heap) (pre : list loc) (out : list (string * list loc))
    (h : Heap) : Prop := {
  inv_cls : ∀ l, cls <$> val h l = cls_at h1 l;
  inv_rest : ∀ l, l ∉ pre → val h l = val h1 l;
  inv_keys : NoDup out.*1;
  inv_group : ∀ k vl l,
    (k, vl) ∈ out → l ∈ vl → l ∈ pre ∧ item <$> val h1 l = Some k;
  inv_nodup : NoDup (cls_at h1 <$> concat out.*2);
  inv_repr : ∀ l, l ∈ pre → cls_at h1 l ∈ cls_at h1 <$> concat out.*2;
  inv_data : ∀ l, l ∈ concat out.*2 →
    data <$> val h l = Some (variants (members h1 pre l));
}.

(** The canonical name that the record at [l] was built with. *)
Definition name_at (h1 : Heap) (l : loc) : option string := item <$> val h1 l.

(** The order of two entries of the result, when the records [pre] have
    been visited: entries of one name are in the order of their records,
    and entries of two names in the order of the first records of these
    names.  A location is smaller when its object was created earlier. *)
Definition before (h1 : Heap) (pre : list loc) (a b : loc) : Prop :=
  (name_at h1 a = name_at h1 b → a < b) ∧
  (name_at h1 a ≠ name_at h1 b →
   ∃ l0, l0 ∈ pre ∧ name_at h1 l0 = name_at h1 a ∧
     ∀ l', l' ∈ pre → name_at h1 l' = name_at h1 b → l0 < l').

(** The order that the loop of [load_aspects] keeps in [out]. *)
Record order_inv (h1 : Heap) (pre : list loc) (out : list (string * list loc))
    : Prop := {
  ord_sorted : StronglySorted (before h1 pre) (concat out.*2);
  ord_groups : ∀ k vl, (k, vl) ∈ out → vl ≠ [];
  ord_first : ∀ l l', l ∈ concat out.*2 → l' ∈ pre →
    cls_at h1 l' = cls_at h1 l → l ≤ l';
}.

(** The records [recs] are what [from_raw] builds from [item_dict]. *)
Definition parsed (item_dict : list (string * list string)) (recs : list Item)
  : Prop :=
  Forall2 (λ pair r, raw_fields pair.1 pair.2 = inr r) item_dict recs.

(** A record that [from_raw] raises an exception for. *)
Definition malformed (pair : string * list string) : Prop :=
  ∃ e, raw_fields pair.1 pair.2 = inl e.

(** The text before the first space of [w], and the text after it. *)
Definition before_space (w : string) : string := (PyStr.partition " " w).1.1.
Definition after_space (w : string) : string := (PyStr.partition " " w).2.

(** A weight string without a space, or whose text before the first space
    is not an integer. *)
Definition bad_weight (w : string) : Prop :=
  PyStr.occurs " " w = false ∨ PyStr.int (before_space w) = None.

(** *** The numerals that [int] reads

    The texts that [int] reads in base ten, described apart from the
    model of [int]: white space around, a sign, and decimal digits between
    two of which a single underscore may stand, at most 4300 digits. *)

(** Every character of [s] is white space: a tab, a line feed, a vertical
    tab, a form feed, a carriage return, a space, a next line or a
    no-break space. *)
Fixpoint blank (s : string) : Prop :=
  match s with
  | EmptyString => True
  | String c s' =>
      nat_of_ascii c ∈ [9; 10; 11; 12; 13; 32; 133; 160] ∧ blank s'
  end.

(** No character of [s] is a space. *)
Fixpoint no_space (s : string) : Prop :=
  match s with
  | EmptyString => True
  | String c s' => c ≠ " "%char ∧ no_space s'
  end.

(** [c] is the character of the decimal digit [d]. *)
Definition digit (c : ascii) (d : Z) : Prop :=
  (0 ≤ d ≤ 9)%Z ∧ Z.of_nat (nat_of_ascii c) = (48 + d)%Z.

(** [s] is made of the digits [ds], the most significant first; between
    two digits there may be one underscore. *)
Inductive grouped : string → list Z → Prop :=
  | grouped_one c d : digit c d → grouped (String c "") [d]
  | grouped_next c d s ds :
      digit c d → grouped s ds → grouped (String c s) (d :: ds)
  | grouped_under c d s ds :
      digit c d → grouped s ds → grouped (String c (String "_" s)) (d :: ds).

(** The integer that the digits [ds] write in base ten. *)
Fixpoint decimal (ds : list Z) : Z :=
  match ds with
  | [] => 0%Z
  | d :: ds' => (d * 10 ^ Z.of_nat (length ds') + decimal ds')%Z
  end.

(** [t] is a numeral of the integer [z]. *)
Inductive numeral : string → Z → Prop :=
  | numeral_plain l s r ds :
      blank l → grouped s ds → (Z.of_nat (length ds) ≤ 4300)%Z → blank r →
      numeral (l +:+ s +:+ r) (decimal ds)
  | numeral_plus l s r ds :
      blank l → grouped s ds → (Z.of_nat (length ds) ≤ 4300)%Z → blank r →
      numeral (l +:+ "+" +:+ s +:+ r) (decimal ds)
  | numeral_minus l s r ds :
      blank l → grouped s ds → (Z.of_nat (length ds) ≤ 4300)%Z → blank r →
      numeral (l +:+ "-" +:+ s +:+ r) (- decimal ds)%Z.

(** A weight string that does not parse: it has no space, or the text
    before its first space is no numeral. *)
Definition ill_formed (w : string) : Prop :=
  no_space w ∨
  ∃ n k, w = n +:+ " " +:+ k ∧ no_space n ∧ ∀ z, ¬ numeral n z.

(** ** Sample catalogues *)

Definition lava : Item :=
  mkItem "Lava" None (<["ignis" := 1%Z]> {["aqua" := 2%Z]}).

Definition pond : Item := mkItem "Pond" None {["aqua" := 2%Z]}.

(** One entry and the list of it. *)
Definition heap_lava : Heap := [ItemO lava; ListO [0]].

(** Two entries, created apart, with the same fields, and the list of both. *)
Definition heap_twins : Heap := [ItemO pond; ItemO pond; ListO [0; 1]].

(** [lava] and [pond] and the list of both. *)
Definition heap_two : Heap := [ItemO lava; ItemO pond; ListO [0; 1]].

(** The catalogue of the scenario. *)
Definition water : list (string * list string) :=
  [("Water", ["2 aqua"]); ("Water --- bucket", ["2 aqua"])].

(** The records of [water], as [from_raw] builds them. *)
Definition water_plain : Item := mkItem "Water" None {["aqua" := 2%Z]}.
Definition water_bucket : Item :=
  mkItem "Water" (Some ["bucket"]) {["aqua" := 2%Z]}.

(** Two records named [Water] with different attributes. *)
Definition waters : list (string * list string) :=
  [("Water", ["2 aqua"]); ("Water --- holy", ["2 aqua"; "1 ordo"])].

(** The records of [waters], as [from_raw] builds them. *)
Definition water_holy : Item :=
  mkItem "Water" (Some ["holy"]) (<["ordo" := 1%Z]> {["aqua" := 2%Z]}).

(** A text of [n] digits. *)
Definition ones (n : nat) : string := string_of_list_ascii (repeat "1"%char n).

Ltac entries_tac := repeat constructor; eexists; reflexivity.

(** * Properties *)

(** ** Runs of the program *)

Lemma bind_inr {A B} (m : M A) (k : A → M B) h x h' :
  m h = inr (x, h') → (m ≫= k) h = k x h'.
Proof. intros E. unfold mbind, M_bind. by rewrite E. Qed.

Lemma bind_inl {A B} (m : M A) (k : A → M B) h e :
  m h = inl e → (m ≫= k) h = inl e.
Proof. intros E. unfold mbind, M_bind. by rewrite E. Qed.

Lemma read_item_val h l it : val h l = Some it → read_item l h = inr (it, h).
Proof.
  unfold val, read_item. destruct (h !! l) as [[?|?]|]; naive_solver.
Qed.

Lemma read_list_lookup h l xs :
  h !! l = Some (ListO xs) → read_list l h = inr (xs, h).
Proof. unfold read_list. by intros ->. Qed.

Lemma Item_eqb_true a b : Item_eqb a b = true ↔ a = b.
Proof.
  unfold Item_eqb. rewrite !andb_true_iff, !bool_decide_eq_true.
  destruct a, b; simpl. split; [intros [[-> ->] ->]|intros [= -> -> ->]]; done.
Qed.

(** The general rule of a loop: an invariant of the elements visited, the
    state and the heap. *)
Lemma for_each_heap_inv {A S} (I : list A → S → Heap → Prop)
    (body : S → A → M S) xs s h :
  (∀ pre x post s h, xs = pre ++ x :: post → I pre s h →
     ∃ s' h', body s x h = inr (s', h') ∧ I (pre ++ [x]) s' h') →
  I [] s h →
  ∃ s' h', for_each body s xs h = inr (s', h') ∧ I xs s' h'.
Proof.
  intros Hbody.
  assert (Hgen : ∀ ys pre s h, xs = pre ++ ys → I pre s h →
            ∃ s' h', for_each body s ys h = inr (s', h') ∧ I xs s' h').
  { induction ys as [|y ys IH]; intros pre s0 h0 Hxs Hpre; simpl.
    - exists s0, h0. rewrite app_nil_r in Hxs. by subst.
    - destruct (Hbody pre y ys s0 h0 Hxs Hpre) as (s1 & h1 & Hrun & Hs1).
      destruct (IH (pre ++ [y]) s1 h1) as (s2 & h2 & Hrun2 & Hs2); [|done|].
      { by rewrite <- app_assoc. }
      exists s2, h2. split; [|done]. by rewrite (bind_inr _ _ _ _ _ Hrun). }
  intros H0. by apply (Hgen xs []).
Qed.

(** A loop whose body leaves the heap as it is keeps an invariant [I] of
    the elements already visited and the state. *)
Lemma for_each_inv {A S} (I : list A → S → Prop) (body : S → A → M S) h xs s :
  (∀ pre x post s, xs = pre ++ x :: post → I pre s →
     ∃ s', body s x h = inr (s', h) ∧ I (pre ++ [x]) s') →
  I [] s →
  ∃ s', for_each body s xs h = inr (s', h) ∧ I xs s'.
Proof.
  intros Hbody H0.
  destruct (for_each_heap_inv (λ pre s h', h' = h ∧ I pre s) body xs s h)
    as (s' & h' & Hrun & -> & Hs'); [|done|by eauto].
  intros pre x post s0 h0 E [-> Hpre].
  destruct (Hbody pre x post s0 E Hpre) as (s1 & Hrun & H1). by exists s1, h.
Qed.

Lemma set_data_spec h l d it :
  val h l = Some it →
  ∃ h', set_data l d h = inr (tt, h') ∧
    val h' l = Some (mkItem (item it) d (aspects it)) ∧
    ∀ l', l' ≠ l → val h' l' = val h l'.
Proof.
  unfold val, set_data. intros Hl.
  destruct (h !! l) as [[it'|]|] eqn:E; [|done..]. injection Hl as ->.
  eexists. split; [done|]. split.
  - rewrite list_lookup_insert_eq; [done|]. by eapply lookup_lt_Some.
  - intros l' Hne. by rewrite list_lookup_insert_ne.
Qed.

(** ** The query engine *)

Lemma contains_spec h out x :
  entries h out → is_Some (val h x) →
  ∃ b, contains out x h = inr (b, h) ∧ (b = true ↔ val h x ∈ val h <$> out).
Proof.
  intros Hout [xo Hx]. induction out as [|e out IH]; simpl.
  - exists false. split; [done|]. split; [done|]. by intros ?%elem_of_nil.
  - apply Forall_cons in Hout as [[eo He] Hout]. destruct (decide (e = x)) as [->|Hne].
    + exists true. split; [done|]. split; [|done]. intros _. apply elem_of_cons. by left.
    + rewrite (bind_inr _ _ _ _ _ (read_item_val _ _ _ He)).
      rewrite (bind_inr _ _ _ _ _ (read_item_val _ _ _ Hx)).
      destruct (Item_eqb eo xo) eqn:Heq.
      * exists true. split; [done|]. split; [|done]. intros _.
        apply Item_eqb_true in Heq as ->. apply elem_of_cons. left. congruence.
      * destruct (IH Hout) as (b & Hrun & Hb). exists b. split; [done|].
        rewrite Hb, elem_of_cons. split; [by right|]. intros [Hv|]; [|done].
        assert (eo = xo) as Hxo by congruence.
        apply Item_eqb_true in Hxo. congruence.
Qed.

Lemma matches_val h search perfect l l' :
  val h l = val h l' → matches h search perfect l → matches h search perfect l'.
Proof. intros Hv (it & Hit & Hp). exists it. split; [congruence|done]. Qed.

Lemma first_of_elem h xs l : first_of h xs l → l ∈ xs.
Proof. intros (pre & post & -> & _). set_solver. Qed.

(** Two entries that are both the first of their fields, and have the same
    fields, are one entry. *)
Lemma first_of_inj h xs l1 l2 :
  first_of h xs l1 → first_of h xs l2 → val h l1 = val h l2 → l1 = l2.
Proof.
  intros (p1 & q1 & E1 & F1) (p2 & q2 & E2 & F2) Hv. subst xs.
  destruct (decide (length p1 = length p2)) as [Hlen|Hlen].
  - apply app_inj_1 in E2 as [_ E2]; [|done]. congruence.
  - assert (∀ (p q p' q' : list loc) a b, p ++ a :: q = p' ++ b :: q' →
              length p < length p' → a ∈ p') as Hin.
    { intros p q p' q' a b E Hlt.
      assert (Ha : (p ++ a :: q) !! length p = Some a)
        by (rewrite lookup_app_r, Nat.sub_diag; [done|lia]).
      rewrite E, lookup_app_l in Ha by done. by eapply list_elem_of_lookup_2. }
    destruct (decide (length p1 < length p2)).
    + exfalso. eapply F2; [|done]. eapply Hin; [exact E2|done].
    + exfalso. eapply F1; [|symmetry; exact Hv].
      eapply Hin; [symmetry; exact E2|lia].
Qed.

(** Every entry of [xs] has a first entry with its fields. *)
Lemma first_of_exists h xs l :
  l ∈ xs → ∃ l', first_of h xs l' ∧ val h l' = val h l.
Proof.
  revert l. induction xs as [|x xs IH] using rev_ind; intros l;
    [by intros ?%elem_of_nil|].
  intros Hl. destruct (decide (val h l ∈ val h <$> xs)) as [Hin|Hnin].
  - apply list_elem_of_fmap in Hin as (l0 & Hv & Hl0).
    destruct (IH _ Hl0) as (l' & (pre & post & -> & Hf) & Hv').
    exists l'. split; [|congruence]. exists pre, (post ++ [x]).
    split; [by rewrite <- app_assoc|done].
  - apply elem_of_app in Hl as [Hl|Hl].
    { exfalso. apply Hnin. apply list_elem_of_fmap. eauto. }
    apply list_elem_of_singleton in Hl. subst l. exists x. split; [|done].
    exists xs, []. split; [done|]. intros l' Hl' Hv. apply Hnin.
    apply list_elem_of_fmap. eauto.
Qed.

(** One group: the entries appended to [out0] are the entries that pass the
    filters and whose fields are not yet in the list. *)
Lemma extend_found_spec h items xs perfect out0 search :
  h !! items = Some (ListO xs) → entries h xs →
  entries h out0 → NoDup (val h <$> out0) →
  ∃ out, extend_found items perfect out0 search h = inr (out, h) ∧
    entries h out ∧ NoDup (val h <$> out) ∧
    (∀ l, l ∈ out0 → l ∈ out) ∧
    (∀ l, l ∈ out → l ∈ out0 ∨ (matches h search perfect l ∧ first_of h xs l)) ∧
    (∀ l, l ∈ xs → matches h search perfect l → val h l ∈ val h <$> out).
Proof.
  intros Hitems Hxs Hout0 Hnd0. unfold extend_found.
  rewrite (bind_inr _ _ _ _ _ (read_list_lookup _ _ _ Hitems)).
  apply (for_each_inv (λ pre out,
    entries h out ∧ NoDup (val h <$> out) ∧
    (∀ l, l ∈ out0 → l ∈ out) ∧
    (∀ l, l ∈ out → l ∈ out0 ∨ (matches h search perfect l ∧ first_of h xs l)) ∧
    (∀ l, l ∈ pre → matches h search perfect l → val h l ∈ val h <$> out)));
    [|by repeat split; auto; intros ? ?%elem_of_nil].
  intros pre x post out E (Hout & Hnd & Hsub & Hsound & Hcompl).
  assert (is_Some (val h x)) as Hx.
  { eapply Forall_forall in Hxs; [exact Hxs|]. rewrite E. set_solver. }
  pose proof Hx as [io Hio].
  rewrite (bind_inr _ _ _ _ _ (read_item_val _ _ _ Hio)).
  assert (Hkeep : passes search perfect io = false →
    entries h out ∧ NoDup (val h <$> out) ∧
    (∀ l, l ∈ out0 → l ∈ out) ∧
    (∀ l, l ∈ out → l ∈ out0 ∨ (matches h search perfect l ∧ first_of h xs l)) ∧
    (∀ l, l ∈ pre ++ [x] → matches h search perfect l → val h l ∈ val h <$> out)).
  { intros Hp. repeat split; auto. intros l [Hl|Hl]%elem_of_app; [by auto|].
    apply list_elem_of_singleton in Hl as ->. intros (it & Hit & Hpass). congruence. }
  unfold passes in Hkeep. destruct (has_all search io) eqn:Hall; simpl in Hkeep;
    [|by eexists; split; [reflexivity|auto]].
  destruct (if perfect then same_len search io else true) eqn:Hlen;
    [|by eexists; split; [reflexivity|auto]].
  assert (matches h search perfect x) as Hm.
  { exists io. split; [done|]. unfold passes. by rewrite Hall, Hlen. }
  destruct (contains_spec h out x Hout Hx) as (b & Hrun & Hb).
  rewrite (bind_inr _ _ _ _ _ Hrun). eexists. split; [reflexivity|].
  destruct b.
  - repeat split; auto. intros l [Hl|Hl]%elem_of_app; [by auto|].
    apply list_elem_of_singleton in Hl as ->. intros _. by apply Hb.
  - assert (val h x ∉ val h <$> out) as Hnew by (intros ?%Hb; done).
    repeat split.
    + apply Forall_app. split; [done|]. by apply Forall_singleton.
    + rewrite fmap_app. apply NoDup_app. repeat split; [done| |apply NoDup_singleton].
      intros v Hv ->%list_elem_of_singleton. done.
    + intros l Hl. apply elem_of_app. left. auto.
    + intros l [Hl|Hl]%elem_of_app; [by auto|].
      apply list_elem_of_singleton in Hl as ->. right. split; [done|].
      exists pre, post. split; [done|]. intros l' Hl' Hv. apply Hnew.
      rewrite <- Hv. apply Hcompl; [done|]. eapply matches_val; [|exact Hm]. done.
    + intros l [Hl|Hl]%elem_of_app Hml; rewrite fmap_app; apply elem_of_app.
      * left. auto.
      * apply list_elem_of_singleton in Hl as ->. right. by constructor.
Qed.

(** The result of a query: a new list object that holds, without two
    entries of the same fields, the first entry of each combination of
    fields that matches one of the groups.  The heap is otherwise as it
    was. *)
Lemma search_spec h items xs to_find or_find perfect :
  h !! items = Some (ListO xs) → entries h xs →
  ∃ res,
    search_aspects to_find items or_find perfect h
      = inr (length h, h ++ [ListO res]) ∧
    NoDup (val h <$> res) ∧
    ∀ l, l ∈ res ↔
         first_of h xs l ∧
         ∃ g, g ∈ searches to_find or_find ∧ matches h g perfect l.
Proof.
  intros Hitems Hxs. unfold search_aspects.
  destruct (for_each_inv (λ gs out,
    entries h out ∧ NoDup (val h <$> out) ∧
    (∀ l, l ∈ out → first_of h xs l ∧ ∃ g, g ∈ gs ∧ matches h g perfect l) ∧
    (∀ l g, l ∈ xs → g ∈ gs → matches h g perfect l → val h l ∈ val h <$> out))
    (extend_found items perfect) h (searches to_find or_find) [])
    as (res & Hrun & Hres & Hnd & Hsound & Hcompl).
  - intros gs g post out E (Hout & Hnd & Hsound & Hcompl).
    destruct (extend_found_spec h items xs perfect out g Hitems Hxs Hout Hnd)
      as (out' & Hrun & Hout' & Hnd' & Hsub & Hsound' & Hcompl').
    exists out'. split; [done|]. split; [done|]. split; [done|]. split.
    + intros l Hin. split.
      { destruct (Hsound' l Hin) as [Hl|[Hm Hf]]; [|done]. by apply Hsound. }
      destruct (Hsound' l Hin) as [Hl|[Hm Hf]].
      * destruct (Hsound l Hl) as (_ & g' & Hg' & Hm). exists g'.
        split; [|done]. apply elem_of_app. by left.
      * exists g. split; [|done]. apply elem_of_app. right. by constructor.
    + intros l g' Hl [Hg'|Hg']%elem_of_app Hm.
      * specialize (Hcompl l g' Hl Hg' Hm).
        apply list_elem_of_fmap in Hcompl as (l' & Hv & Hl').
        apply list_elem_of_fmap. exists l'. auto.
      * apply list_elem_of_singleton in Hg' as ->. auto.
  - split; [by apply Forall_nil_2|]. split; [by apply NoDup_nil_2|].
    split; [by intros l ?%elem_of_nil|by intros l g _ ?%elem_of_nil].
  - exists res. rewrite (bind_inr _ _ _ _ _ Hrun). split; [done|].
    split; [done|]. intros l. split; [by apply Hsound|].
    intros (Hf & g & Hg & Hm).
    pose proof (Hcompl l g (first_of_elem _ _ _ Hf) Hg Hm) as Hin.
    apply list_elem_of_fmap in Hin as (l' & Hv & Hl').
    destruct (Hsound l' Hl') as (Hf' & _).
    by rewrite (first_of_inj h xs l l' Hf Hf' Hv).
Qed.

(** The queries for aqua and ignis over [lava] (aqua and ignis) and
    [pond] (aqua): the conjunctive query returns [lava], with the exact
    flag too, and the disjunctive query returns both. *)
Example queries_aqua_ignis :
  search_aspects ["aqua"; "ignis"] 2 false false heap_two
    = inr (3, heap_two ++ [ListO [0]])
  ∧ search_aspects ["aqua"; "ignis"] 2 false true heap_two
    = inr (3, heap_two ++ [ListO [0]])
  ∧ search_aspects ["aqua"; "ignis"] 2 true false heap_two
    = inr (3, heap_two ++ [ListO [0; 1]]).
Proof. repeat split; by vm_compute. Qed.

Lemma NoDup_fmap_inj {A B} (f : A → B) (l : list A) x y :
  NoDup (f <$> l) → x ∈ l → y ∈ l → f x = f y → x = y.
Proof.
  induction l as [|a l IH]; simpl; [by intros _ ?%elem_of_nil|].
  intros [Hna Hnd]%NoDup_cons [->|Hx]%elem_of_cons [->|Hy]%elem_of_cons E; auto.
  - exfalso. apply Hna. rewrite E. by apply list_elem_of_fmap_2.
  - exfalso. apply Hna. rewrite <- E. by apply list_elem_of_fmap_2.
Qed.

Lemma has_all_iff search it :
  has_all search it = true ↔ ∀ a, a ∈ search → is_Some (aspects it !! a).
Proof.
  unfold has_all. rewrite forallb_forall. split.
  - intros H a Ha. apply list_elem_of_In in Ha. by apply H, bool_decide_eq_true in Ha.
  - intros H a Ha. apply bool_decide_eq_true, H, list_elem_of_In, Ha.
Qed.

(** C1, as the claim states it, fails: a conjunctive query with no
    requested name returns the entry of the catalogue. *)
Lemma empty_query_returns_entry :
  search_aspects [] 1 false false heap_lava
    = inr (2, heap_lava ++ [ListO [0]])
  ∧ search_aspects [] 1 false false heap_lava
    ≠ inr (2, heap_lava ++ [ListO []]).
Proof. split; [by vm_compute|]. vm_compute. congruence. Qed.

(** C1 (amended).  With no requested name, a disjunctive query has no
    group and returns the empty list, whatever the exact flag.  A
    conjunctive query has the one empty group, which every entry contains:
    it returns every entry of the list (the first of each combination of
    fields), and with the exact flag those of them that have no
    attribute. *)
Theorem empty_query h items xs or_find perfect :
  h !! items = Some (ListO xs) → entries h xs →
  ∃ res,
    search_aspects [] items or_find perfect h
      = inr (length h, h ++ [ListO res]) ∧
    (or_find = true → res = []) ∧
    (or_find = false →
       ∀ l, l ∈ res ↔
            first_of h xs l ∧
            (perfect = true → ∃ it, val h l = Some it ∧ aspects it = ∅)) ∧
    (or_find = false → perfect = false →
       ∀ l, l ∈ xs → ∃ l', l' ∈ res ∧ val h l' = val h l).
Proof.
  intros Hitems Hxs.
  destruct (search_spec h items xs [] or_find perfect Hitems Hxs)
    as (res & Hrun & _ & Hmem).
  exists res. split; [done|]. split; [|split].
  - intros ->. destruct res as [|l res]; [done|]. exfalso.
    destruct (proj1 (Hmem l)) as (_ & g & Hg & _); [by left|].
    by apply elem_of_nil in Hg.
  - intros -> l. rewrite Hmem. simpl. split.
    + intros (Hf & g & Hg & it & Hit & Hp). split; [done|]. intros ->.
      apply list_elem_of_singleton in Hg as ->. exists it. split; [done|].
      unfold passes, same_len in Hp. simpl in Hp.
      apply bool_decide_eq_true in Hp. by apply map_size_empty_inv.
    + intros (Hf & Hp). split; [done|]. exists []. split; [by left|].
      assert (is_Some (val h l)) as [it Hit].
      { eapply Forall_forall in Hxs; [exact Hxs|]. by eapply first_of_elem. }
      exists it. split; [done|]. unfold passes, same_len. simpl.
      destruct perfect; [|done]. destruct Hp as (it' & Hit' & Hemp); [done|].
      apply bool_decide_eq_true. assert (it = it') as -> by congruence.
      by rewrite Hemp, map_size_empty.
  - intros -> -> l Hl. destruct (first_of_exists h xs l Hl) as (l' & Hf & Hv).
    exists l'. split; [|done]. apply Hmem. split; [done|].
    exists []. split; [by left|].
    assert (is_Some (val h l')) as [it Hit].
    { eapply Forall_forall in Hxs; [exact Hxs|]. by eapply first_of_elem. }
    by exists it.
Qed.

Lemma empty_query_witness :
  ∃ res,
    search_aspects [] 2 false false heap_two
      = inr (length heap_two, heap_two ++ [ListO res]) ∧
    (false = true → res = []) ∧
    (false = false →
       ∀ l, l ∈ res ↔
            first_of heap_two [0; 1] l ∧
            (false = true → ∃ it, val heap_two l = Some it ∧ aspects it = ∅)) ∧
    (false = false → false = false →
       ∀ l, l ∈ [0; 1] → ∃ l', l' ∈ res ∧ val heap_two l' = val heap_two l).
Proof.
  apply (empty_query heap_two 2 [0; 1] false false); [reflexivity|entries_tac].
Defined.

(** Two entries with the same fields: the query returns the first only. *)
Example twins_once :
  search_aspects ["aqua"] 2 false false heap_twins
    = inr (3, heap_twins ++ [ListO [0]]).
Proof. by vm_compute. Qed.

(** C2, as the claim states it, fails: no entry list holds two distinct
    entries with the same fields that are both in the result of a query. *)
Lemma dedup_not_by_identity :
  ¬ ∃ h items xs to_find or_find perfect r h' res l1 l2,
      h !! items = Some (ListO xs) ∧ entries h xs ∧
      search_aspects to_find items or_find perfect h = inr (r, h') ∧
      h' !! r = Some (ListO res) ∧
      l1 ≠ l2 ∧ val h l1 = val h l2 ∧ l1 ∈ res ∧ l2 ∈ res.
Proof.
  intros (h & items & xs & to_find & or_find & perfect & r & h' & res & l1 & l2
          & Hitems & Hxs & Hrun & Hr & Hne & Hv & H1 & H2).
  destruct (search_spec h items xs to_find or_find perfect Hitems Hxs)
    as (res' & Hrun' & Hnd & _).
  rewrite Hrun' in Hrun. injection Hrun as <- <-.
  rewrite list_lookup_middle in Hr by done. injection Hr as <-.
  apply Hne. by eapply (NoDup_fmap_inj (val h)).
Qed.

(** C2 (amended).  The result of a query is freed of duplicates by the
    equality of the dataclass (same name, same variants, same attributes),
    not by identity: two entries of the result that have the same fields
    are one entry, and it is the first entry of the list with these
    fields. *)
Theorem dedup_by_value h items xs to_find or_find perfect :
  h !! items = Some (ListO xs) → entries h xs →
  ∃ res,
    search_aspects to_find items or_find perfect h
      = inr (length h, h ++ [ListO res]) ∧
    NoDup res ∧
    (∀ l1 l2, l1 ∈ res → l2 ∈ res → val h l1 = val h l2 → l1 = l2) ∧
    (∀ l, l ∈ res → first_of h xs l).
Proof.
  intros Hitems Hxs.
  destruct (search_spec h items xs to_find or_find perfect Hitems Hxs)
    as (res & Hrun & Hnd & Hmem).
  exists res. split; [done|]. split; [by eapply NoDup_fmap_1|]. split.
  - intros l1 l2. by apply NoDup_fmap_inj.
  - intros l Hl. by apply Hmem.
Qed.

Lemma dedup_by_value_witness :
  ∃ res,
    search_aspects ["aqua"] 2 false false heap_twins
      = inr (length heap_twins, heap_twins ++ [ListO res]) ∧
    NoDup res ∧
    (∀ l1 l2, l1 ∈ res → l2 ∈ res →
       val heap_twins l1 = val heap_twins l2 → l1 = l2) ∧
    (∀ l, l ∈ res → first_of heap_twins [0; 1] l).
Proof.
  apply (dedup_by_value heap_twins 2 [0; 1] ["aqua"] false false);
    [reflexivity|entries_tac].
Defined.

(** Where the requested names are pairwise distinct, passing the filters
    of an exact group is having exactly the requested keys. *)
Lemma passes_exact_NoDup search it :
  NoDup search →
  passes search true it = true ↔ dom (aspects it) = list_to_set search.
Proof.
  intros Hnd. unfold passes, same_len.
  rewrite andb_true_iff, has_all_iff, bool_decide_eq_true.
  rewrite <- size_dom, <- (size_list_to_set (C:=gset string) search Hnd).
  split.
  - intros [Hall Hsize].
    symmetry. apply set_subseteq_size_eq; [|lia].
    intros a Ha. apply elem_of_dom, Hall. by apply elem_of_list_to_set in Ha.
  - intros E. split; [|by rewrite E]. intros a Ha.
    apply elem_of_dom. rewrite E. by apply elem_of_list_to_set.
Qed.

(** C3 at a requested list that names an attribute twice: the exact
    conjunctive query returns [lava], whose keys are not the requested
    names, and does not return [pond], whose keys are. *)
Theorem exact_query_repeated_name :
  search_aspects ["aqua"; "aqua"] 2 false true heap_two
    = inr (3, heap_two ++ [ListO [0]])
  ∧ dom (aspects lava) ≠ list_to_set ["aqua"; "aqua"]
  ∧ dom (aspects pond) = list_to_set ["aqua"; "aqua"].
Proof.
  split; [by vm_compute|]. split.
  - intros E. assert ("ignis" ∈ dom (aspects lava)) as Hin by (by vm_compute).
    rewrite E in Hin. set_solver.
  - by vm_compute.
Qed.

(** The exact conjunctive query for pairwise distinct names returns the
    entries (the first of each combination of fields) that have exactly
    the requested keys. *)
Lemma exact_conjunctive_NoDup h items xs to_find :
  h !! items = Some (ListO xs) → entries h xs → NoDup to_find →
  ∃ res,
    search_aspects to_find items false true h
      = inr (length h, h ++ [ListO res]) ∧
    ∀ l, l ∈ res ↔
         first_of h xs l ∧
         ∃ it, val h l = Some it ∧ dom (aspects it) = list_to_set to_find.
Proof.
  intros Hitems Hxs Hnd.
  destruct (search_spec h items xs to_find false true Hitems Hxs)
    as (res & Hrun & _ & Hmem).
  exists res. split; [done|]. intros l. rewrite Hmem. simpl.
  split; intros (Hf & H); (split; [done|]).
  - destruct H as (g & ->%list_elem_of_singleton & it & Hit & Hp).
    exists it. split; [done|]. by apply passes_exact_NoDup.
  - destruct H as (it & Hit & Hd). exists to_find. split; [by left|].
    exists it. split; [done|]. by apply passes_exact_NoDup.
Qed.

(** C6, as the claim states it, fails with the exact flag: [lava] has
    exactly the keys aqua and ignis, so the exact conjunctive query
    returns it, and the exact disjunctive query, whose groups have one
    name, does not. *)
Lemma exact_conjunctive_not_in_disjunctive :
  search_aspects ["aqua"; "ignis"] 1 false true heap_lava
    = inr (2, heap_lava ++ [ListO [0]])
  ∧ search_aspects ["aqua"; "ignis"] 1 true true heap_lava
    = inr (2, heap_lava ++ [ListO []]).
Proof. split; by vm_compute. Qed.

(** C6 (amended).  For a non-empty list of requested names, every entry
    that the conjunctive query returns is in the result of the disjunctive
    query, when the exact flag is off, or when it is on and one name is
    requested. *)
Theorem conjunctive_in_disjunctive h items xs to_find perfect :
  h !! items = Some (ListO xs) → entries h xs →
  to_find ≠ [] → (perfect = true → length to_find = 1) →
  ∃ conj disj,
    search_aspects to_find items false perfect h
      = inr (length h, h ++ [ListO conj]) ∧
    search_aspects to_find items true perfect h
      = inr (length h, h ++ [ListO disj]) ∧
    ∀ l, l ∈ conj → l ∈ disj.
Proof.
  intros Hitems Hxs Hne Hone.
  destruct (search_spec h items xs to_find false perfect Hitems Hxs)
    as (conj & Hc & _ & Hmc).
  destruct (search_spec h items xs to_find true perfect Hitems Hxs)
    as (disj & Hd & _ & Hmd).
  exists conj, disj. split; [done|]. split; [done|].
  intros l. rewrite Hmc, Hmd. simpl.
  intros (Hf & g & ->%list_elem_of_singleton & it & Hit & Hp).
  split; [done|]. destruct to_find as [|a rest]; [done|].
  exists [a]. split; [by left|]. exists it. split; [done|].
  destruct perfect.
  - specialize (Hone eq_refl). destruct rest; [done|]. simpl in Hone. lia.
  - unfold passes in *. rewrite andb_true_r in *.
    apply has_all_iff. intros b ->%list_elem_of_singleton.
    eapply has_all_iff; [exact Hp|]. by left.
Qed.

Lemma conjunctive_in_disjunctive_witness :
  ∃ conj disj,
    search_aspects ["aqua"; "ignis"] 2 false false heap_two
      = inr (length heap_two, heap_two ++ [ListO conj]) ∧
    search_aspects ["aqua"; "ignis"] 2 true false heap_two
      = inr (length heap_two, heap_two ++ [ListO disj]) ∧
    ∀ l, l ∈ conj → l ∈ disj.
Proof.
  apply (conjunctive_in_disjunctive heap_two 2 [0; 1] ["aqua"; "ignis"] false);
    [reflexivity|entries_tac|discriminate|discriminate].
Defined.

(** C7.  Conjunctive matching is antitone in the requested names: an
    entry that has every name of [S2] has every name of [S1 ⊆ S2], and an
    entry in the result of the conjunctive query for [S2] is in the result
    of the conjunctive query for [S1]. *)
Theorem conjunctive_antitone h items xs (S1 S2 : list string) :
  h !! items = Some (ListO xs) → entries h xs → S1 ⊆ S2 →
  (∀ e, has_all S2 e = true → has_all S1 e = true) ∧
  ∃ res1 res2,
    search_aspects S1 items false false h
      = inr (length h, h ++ [ListO res1]) ∧
    search_aspects S2 items false false h
      = inr (length h, h ++ [ListO res2]) ∧
    ∀ l, l ∈ res2 → l ∈ res1.
Proof.
  intros Hitems Hxs Hsub.
  assert (∀ e, has_all S2 e = true → has_all S1 e = true) as Hanti.
  { intros e. rewrite !has_all_iff. intros H a Ha. by apply H, Hsub. }
  split; [done|].
  destruct (search_spec h items xs S1 false false Hitems Hxs)
    as (res1 & H1 & _ & Hm1).
  destruct (search_spec h items xs S2 false false Hitems Hxs)
    as (res2 & H2 & _ & Hm2).
  exists res1, res2. split; [done|]. split; [done|].
  intros l. rewrite Hm1, Hm2. simpl.
  intros (Hf & g & ->%list_elem_of_singleton & it & Hit & Hp).
  split; [done|]. exists S1. split; [by left|]. exists it. split; [done|].
  unfold passes in *. rewrite andb_true_r in *. by apply Hanti.
Qed.

Lemma conjunctive_antitone_witness :
  (∀ e, has_all ["aqua"; "ignis"] e = true → has_all ["ignis"] e = true) ∧
  ∃ res1 res2,
    search_aspects ["ignis"] 2 false false heap_two
      = inr (length heap_two, heap_two ++ [ListO res1]) ∧
    search_aspects ["aqua"; "ignis"] 2 false false heap_two
      = inr (length heap_two, heap_two ++ [ListO res2]) ∧
    ∀ l, l ∈ res2 → l ∈ res1.
Proof.
  apply (conjunctive_antitone heap_two 2 [0; 1] ["ignis"] ["aqua"; "ignis"]);
    [reflexivity|entries_tac|].
  intros a ->%list_elem_of_singleton. right. by left.
Defined.

(** C10.  A query reads its input: it returns, and in the heap it leaves
    the list of entries has its elements in their order, every entry has
    its name, variants and attributes, and every other object that
    existed is as it was. *)
Theorem search_read_only h items xs to_find or_find perfect :
  h !! items = Some (ListO xs) → entries h xs →
  ∃ r h',
    search_aspects to_find items or_find perfect h = inr (r, h') ∧
    h' !! items = Some (ListO xs) ∧
    (∀ l, l ∈ xs → val h' l = val h l) ∧
    (∀ l o, h !! l = Some o → h' !! l = Some o).
Proof.
  intros Hitems Hxs.
  destruct (search_spec h items xs to_find or_find perfect Hitems Hxs)
    as (res & Hrun & _).
  eexists _, _. split; [exact Hrun|].
  assert (∀ l o, h !! l = Some o → (h ++ [ListO res]) !! l = Some o) as Hframe.
  { intros l o Hl. by apply lookup_app_l_Some. }
  split; [by apply Hframe|]. split; [|done].
  intros l Hl. eapply Forall_forall in Hxs as [it Hit]; [|exact Hl].
  rewrite Hit. unfold val in *. destruct (h !! l) as [o|] eqn:E; [|done].
  by rewrite (Hframe l o E).
Qed.

Lemma search_read_only_witness :
  ∃ r h',
    search_aspects ["aqua"] 2 true false heap_two = inr (r, h') ∧
    h' !! 2 = Some (ListO [0; 1]) ∧
    (∀ l, l ∈ [0; 1] → val h' l = val heap_two l) ∧
    (∀ l o, heap_two !! l = Some o → h' !! l = Some o).
Proof.
  apply (search_read_only heap_two 2 [0; 1] ["aqua"] true false);
    [reflexivity|entries_tac].
Defined.

(** ** The record normaliser *)

(** *** Raw names *)

Lemma startswith_true s pre :
  PyStr.startswith s pre = true → ∃ v, s = pre +:+ v.
Proof.
  revert s. induction pre as [|a pre IH]; intros s; simpl; [by eauto|].
  destruct s as [|b s]; [done|]. simpl.
  destruct (Ascii.eqb a b) eqn:E; [apply Ascii.eqb_eq in E as ->|done].
  intros [v ->]%IH. by exists v.
Qed.

Lemma partition_cons sep c s :
  PyStr.partition sep (String c s) =
    if PyStr.startswith (String c s) sep
    then (EmptyString, sep, PyStr.drop (String.length sep) (String c s))
    else let '(a, m, b) := PyStr.partition sep s in (String c a, m, b).
Proof. done. Qed.

(** A name without the separator is its own canonical name. *)
Lemma partition_absent X :
  (∀ u v, X ≠ u +:+ " --- " +:+ v) →
  PyStr.partition " --- " X = (X, "", "").
Proof.
  induction X as [|c X IH]; intros Hsep; [done|].
  rewrite partition_cons.
  destruct (PyStr.startswith (String c X) " --- ") eqn:E.
  { apply startswith_true in E as [v E]. by apply (Hsep "" v) in E. }
  rewrite IH; [done|]. intros u v ->. by apply (Hsep (String c u) v).
Qed.

(** After a name that has no separator and does not end in [" ---"], the
    first separator of [X + " --- "] is the one appended. *)
Lemma partition_appended X :
  (∀ u v, X ≠ u +:+ " --- " +:+ v) → (∀ u, X ≠ u +:+ " ---") →
  PyStr.partition " --- " (X +:+ " --- ") = (X, " --- ", "").
Proof.
  induction X as [|c X IH]; intros Hsep Hend; [done|].
  change (String c X +:+ " --- ") with (String c (X +:+ " --- ")).
  rewrite partition_cons.
  destruct (PyStr.startswith (String c (X +:+ " --- ")) " --- ") eqn:E.
  { exfalso. apply startswith_true in E as [v E].
    destruct X as [|c2 [|c3 [|c4 [|c5 r]]]]; simpl in E.
    - by simplify_eq.
    - by simplify_eq.
    - by simplify_eq.
    - injection E as -> -> -> -> _. by apply (Hend "").
    - injection E as -> -> -> -> -> _. by apply (Hsep "" r). }
  rewrite IH; [done| |].
  - intros u v ->. by apply (Hsep (String c u) v).
  - intros u ->. by apply (Hend (String c u)).
Qed.

(** C9, as the claim states it, fails: the name [Water ---] has no
    separator, but with [" --- "] appended the first separator starts at
    its first space, so the entry is named [Water] and has the variant
    ["--- "]. *)
Lemma empty_variant_name_ending_in_dashes :
  from_raw "Water ---" [] []
    = inr (0, [ItemO (mkItem "Water ---" None ∅)])
  ∧ from_raw ("Water ---" +:+ " --- ") [] []
    = inr (0, [ItemO (mkItem "Water" (Some ["--- "]) ∅)]).
Proof. split; by vm_compute. Qed.

Lemma startswith_app pre v : PyStr.startswith (pre +:+ v) pre = true.
Proof.
  induction pre as [|a pre IH]; simpl; [by destruct v|]. by rewrite Ascii.eqb_refl.
Qed.

Lemma occurs_unfold sub s :
  PyStr.occurs sub s =
    PyStr.startswith s sub
    || match s with EmptyString => false | String _ s' => PyStr.occurs sub s' end.
Proof. by destruct s. Qed.

Lemma endswith_unfold s suf :
  PyStr.endswith s suf =
    String.eqb s suf
    || match s with EmptyString => false | String _ s' => PyStr.endswith s' suf end.
Proof. by destruct s. Qed.

Lemma occurs_false sub s :
  PyStr.occurs sub s = false → ∀ u v, s ≠ u +:+ sub +:+ v.
Proof.
  intros H u. revert s H. induction u as [|c u IH]; intros s H v ->;
    rewrite occurs_unfold in H; apply orb_false_elim in H as [H1 H2].
  - change ("" +:+ sub +:+ v) with (sub +:+ v) in H1.
    by rewrite startswith_app in H1.
  - by apply (IH _ H2 v).
Qed.

Lemma endswith_false suf s :
  PyStr.endswith s suf = false → ∀ u, s ≠ u +:+ suf.
Proof.
  intros H u. revert s H. induction u as [|c u IH]; intros s H ->;
    rewrite endswith_unfold in H; apply orb_false_elim in H as [H1 H2].
  - change ("" +:+ suf) with suf in H1. by rewrite String.eqb_refl in H1.
  - by apply (IH _ H2).
Qed.

(** C9 (amended).  For a name [X] that does not contain the separator and
    does not end in [" ---"], [from_raw] treats [X + " --- "] as it treats
    [X]: the same exception, or an entry named [X] without variants. *)
Theorem from_raw_empty_variant X asp h :
  PyStr.occurs " --- " X = false → PyStr.endswith X " ---" = false →
  from_raw (X +:+ " --- ") asp h = from_raw X asp h ∧
  ((∃ e, from_raw X asp h = inl e) ∨
   (∃ a, from_raw X asp h = inr (length h, h ++ [ItemO (mkItem X None a)]))).
Proof.
  intros Hsep Hend. unfold from_raw, raw_fields.
  pose proof (occurs_false _ _ Hsep) as Hsep'.
  pose proof (endswith_false _ _ Hend) as Hend'.
  rewrite (partition_appended X Hsep' Hend'), (partition_absent X Hsep').
  split; [done|]. destruct (dict_comp asp ∅) as [e|a]; [left|right]; eauto.
Qed.

Lemma from_raw_empty_variant_witness :
  from_raw ("Water" +:+ " --- ") ["2 aqua"] [] = from_raw "Water" ["2 aqua"] [] ∧
  ((∃ e, from_raw "Water" ["2 aqua"] [] = inl e) ∨
   (∃ a, from_raw "Water" ["2 aqua"] []
           = inr (length (@nil Obj), [] ++ [ItemO (mkItem "Water" None a)]))).
Proof. apply (from_raw_empty_variant "Water" ["2 aqua"] []); reflexivity. Defined.

(** *** Weight strings *)

Lemma startswith_nil s : PyStr.startswith s "" = true.
Proof. by destruct s. Qed.

Lemma startswith_cons a pre b s :
  PyStr.startswith (String b s) (String a pre)
    = if Ascii.eqb a b then PyStr.startswith s pre else false.
Proof. done. Qed.

Lemma partition_space_absent w :
  PyStr.occurs " " w = false → PyStr.partition " " w = (w, "", "").
Proof.
  induction w as [|c w IH]; [done|]. rewrite occurs_unfold, partition_cons.
  intros [-> Hw]%orb_false_elim. by rewrite (IH Hw).
Qed.

(** The partition at a space is at the first space. *)
Lemma partition_space_found w :
  PyStr.occurs " " w = true →
  PyStr.partition " " w = (before_space w, " ", after_space w) ∧
  w = before_space w +:+ " " +:+ after_space w ∧
  PyStr.occurs " " (before_space w) = false.
Proof.
  unfold before_space, after_space.
  induction w as [|c w IH]; [done|]. rewrite occurs_unfold, partition_cons.
  destruct (PyStr.startswith (String c w) " ") eqn:E.
  - intros _. rewrite startswith_cons in E.
    destruct (Ascii.eqb " " c) eqn:Ec; [|done].
    apply Ascii.eqb_eq in Ec as <-. done.
  - rewrite orb_false_l. intros Hw. destruct (IH Hw) as (Hp & Hw' & Hb).
    destruct (PyStr.partition " " w) as [[a m] b]. cbn [fst snd] in *.
    injection Hp as ->. split; [done|]. split; [by rewrite Hw' at 1|].
    rewrite occurs_unfold, Hb, orb_false_r. rewrite startswith_cons in E |- *.
    destruct (Ascii.eqb " " c); [|done]. by rewrite startswith_nil in E.
Qed.

Lemma weight_spec w :
  match weight w with
  | inl _ => bad_weight w
  | inr (k, z) =>
      PyStr.occurs " " w = true ∧ k = after_space w ∧
      PyStr.int (before_space w) = Some z
  end.
Proof.
  unfold weight, PyStr.split1, bad_weight.
  destruct (PyStr.occurs " " w) eqn:Hocc.
  - destruct (partition_space_found w Hocc) as (-> & _ & _). simpl.
    destruct (PyStr.int (before_space w)); [done|by right].
  - rewrite (partition_space_absent w Hocc). simpl. by left.
Qed.

Lemma weight_bad w : bad_weight w → ∃ e, weight w = inl e.
Proof.
  pose proof (weight_spec w) as H. destruct (weight w) as [e|[k z]]; [by eauto|].
  destruct H as (Hocc & _ & Hint). intros [?|?]; congruence.
Qed.

(** The dictionary that the comprehension builds over [d]: every weight
    string is well formed and its key is present, and a key has the
    integer of the last weight string that carries it. *)
Lemma dict_comp_spec asp d a :
  dict_comp asp d = inr a →
  Forall (λ w, ¬ bad_weight w) asp ∧
  (∀ k, (∀ w, w ∈ asp → after_space w ≠ k) → a !! k = d !! k) ∧
  (∀ k, is_Some (d !! k) ∨ (∃ w, w ∈ asp ∧ after_space w = k) → is_Some (a !! k)) ∧
  (∀ i w, asp !! i = Some w →
     (∀ j w', i < j → asp !! j = Some w' → after_space w' ≠ after_space w) →
     a !! after_space w = PyStr.int (before_space w)).
Proof.
  revert d. induction asp as [|x asp IH]; intros d; simpl.
  - intros [= ->]. split; [done|]. split; [done|]. split; [|done].
    intros k [?|(w & ?%elem_of_nil & _)]; done.
  - pose proof (weight_spec x) as Hx. destruct (weight x) as [e|[k0 z0]]; [done|].
    destruct Hx as (Hocc & -> & Hint). intros Hrun.
    destruct (IH _ Hrun) as (Hgood & Hkeep & Hkeys & Hlast).
    split; [|split; [|split]].
    + constructor; [|done]. intros [?|?]; congruence.
    + intros k Hk. rewrite Hkeep.
      * apply lookup_insert_ne. apply Hk. by left.
      * intros w Hw. apply Hk. by right.
    + intros k Hk. apply Hkeys.
      destruct (decide (after_space x = k)) as [<-|Hne].
      { left. rewrite lookup_insert_eq. by eexists. }
      destruct Hk as [Hd|(w & [->|Hw]%elem_of_cons & Hwk)]; [|done|].
      * left. by rewrite lookup_insert_ne.
      * right. by exists w.
    + intros [|i] w Hi Hlater; simpl in Hi.
      * injection Hi as <-. rewrite Hkeep, lookup_insert_eq; [done|].
        intros w [j Hj]%list_elem_of_lookup. apply (Hlater (S j)); [lia|done].
      * apply (Hlast i w Hi). intros j w' Hij Hj. apply (Hlater (S j)); [lia|done].
Qed.

(** The dictionary is built by the assignments [d[k] = z] of the weight
    strings, from left to right. *)
Lemma dict_comp_fold asp d a :
  dict_comp asp d = inr a →
  ∃ zs, Forall2 (λ w z, PyStr.int (before_space w) = Some z) asp zs ∧
    a = foldl (λ d wz, <[after_space wz.1 := wz.2]> d) d (zip asp zs).
Proof.
  revert d. induction asp as [|x asp IH]; intros d; simpl.
  - intros [= ->]. exists []. by split; [constructor|].
  - pose proof (weight_spec x) as Hx. destruct (weight x) as [e|[k0 z0]]; [done|].
    destruct Hx as (_ & -> & Hint). intros (zs & Hzs & ->)%IH.
    exists (z0 :: zs). by split; [constructor|].
Qed.

Lemma dict_comp_fail asp d :
  Exists bad_weight asp → ∃ e, dict_comp asp d = inl e.
Proof.
  intros Hex. revert d. induction Hex as [x asp Hx|x asp Hex IH]; intros d; simpl.
  - destruct (weight_bad x Hx) as [e ->]. by exists e.
  - destruct (weight x) as [e|[k z]]; [by exists e|]. apply IH.
Qed.

Lemma dict_comp_cases asp d :
  (∃ e, dict_comp asp d = inl e ∧ Exists bad_weight asp) ∨
  (∃ a, dict_comp asp d = inr a).
Proof.
  revert d. induction asp as [|x asp IH]; intros d; simpl; [right; by eauto|].
  pose proof (weight_spec x) as Hx. destruct (weight x) as [e|[k z]].
  - left. exists e. split; [done|]. by left.
  - destruct (IH (<[k:=z]> d)) as [(e & He & Hex)|[a Ha]]; [left|right; by eauto].
    exists e. split; [done|]. by right.
Qed.

Lemma raw_fields_cases name asp :
  (∃ e, raw_fields name asp = inl e ∧ Exists bad_weight asp) ∨
  (∃ it, raw_fields name asp = inr it ∧ dict_comp asp ∅ = inr (aspects it)).
Proof.
  unfold raw_fields. destruct (PyStr.partition " --- " name) as [[n m] dat].
  destruct (dict_comp_cases asp ∅) as [(e & -> & Hex)|[a ->]]; [left|right]; eauto.
Qed.

Lemma malformed_iff pair : malformed pair ↔ Exists bad_weight pair.2.
Proof.
  unfold malformed. split.
  - intros [e He]. destruct (raw_fields_cases pair.1 pair.2)
      as [(e' & _ & Hex)|(it & Hit & _)]; [done|congruence].
  - intros Hex. unfold raw_fields.
    destruct (PyStr.partition " --- " pair.1) as [[n m] dat].
    destruct (dict_comp_fail pair.2 ∅ Hex) as [e ->]. by exists e.
Qed.

(** *** Numerals *)

Lemma lstrip_cons c s :
  PyStr.lstrip (String c s) = if PyStr.is_space c then PyStr.lstrip s else String c s.
Proof. done. Qed.

Lemma rstrip_cons c s :
  PyStr.rstrip (String c s) =
    match PyStr.rstrip s with
    | EmptyString => if PyStr.is_space c then EmptyString else String c EmptyString
    | r => String c r
    end.
Proof. done. Qed.

Lemma digits_cons acc prev c s :
  PyStr.digits acc prev (String c s) =
    match PyStr.digit_val c with
    | Some d => PyStr.digits (10 * acc + d)%Z true s
    | None => if Ascii.eqb c "_" && prev then PyStr.digits acc false s else None
    end.
Proof. done. Qed.

Lemma scanned_cons c s :
  PyStr.scanned (String c s) =
    match PyStr.digit_val c with
    | Some _ => (1 + PyStr.scanned s)%Z
    | None => if Ascii.eqb c "_" then PyStr.scanned s else 0%Z
    end.
Proof. done. Qed.

Lemma digit_val_digit c d : PyStr.digit_val c = Some d ↔ digit c d.
Proof.
  unfold PyStr.digit_val, digit.
  destruct (Nat.leb_spec 48 (nat_of_ascii c)), (Nat.leb_spec (nat_of_ascii c) 57);
    simpl; split; try (intros [= <-]; lia); try (intros [? ?]; lia).
  intros [? ?]. f_equal. lia.
Qed.

Lemma is_space_white c :
  PyStr.is_space c = true ↔ nat_of_ascii c ∈ [9; 10; 11; 12; 13; 32; 133; 160].
Proof.
  unfold PyStr.is_space. rewrite !elem_of_cons, elem_of_nil.
  destruct (Nat.leb_spec 9 (nat_of_ascii c)), (Nat.leb_spec (nat_of_ascii c) 13),
    (Nat.eqb_spec (nat_of_ascii c) 32), (Nat.eqb_spec (nat_of_ascii c) 133),
    (Nat.eqb_spec (nat_of_ascii c) 160); simpl; split; try done; lia.
Qed.

Lemma digit_not_space c d : digit c d → PyStr.is_space c = false.
Proof.
  intros [? ?]. destruct (PyStr.is_space c) eqn:E; [|done].
  apply is_space_white in E. rewrite !elem_of_cons, elem_of_nil in E. lia.
Qed.

(** A digit is no sign and no underscore. *)
Lemma digit_not c d c' :
  digit c d → nat_of_ascii c' < 48 ∨ 57 < nat_of_ascii c' → Ascii.eqb c c' = false.
Proof. intros [? ?] ?. apply Ascii.eqb_neq. intros ->. lia. Qed.

Lemma lstrip_spec t : ∃ l, t = l +:+ PyStr.lstrip t ∧ blank l.
Proof.
  induction t as [|c t (l & Ht & Hl)]; [by exists ""|]. rewrite lstrip_cons.
  destruct (PyStr.is_space c) eqn:Hc; [|by exists ""].
  exists (String c l).
  split; [change (String c t = String c (l +:+ PyStr.lstrip t)); by f_equal|].
  split; [by apply is_space_white|done].
Qed.

Lemma rstrip_spec u : ∃ r, u = PyStr.rstrip u +:+ r ∧ blank r.
Proof.
  induction u as [|c u (r & Hu & Hr)]; [by exists ""|]. rewrite rstrip_cons.
  destruct (PyStr.rstrip u) as [|c' u'] eqn:E.
  - change ("" +:+ r) with r in Hu. subst r.
    destruct (PyStr.is_space c) eqn:Hc.
    + exists (String c u). split; [done|]. split; [by apply is_space_white|done].
    + by exists u.
  - exists r. split; [|done]. rewrite Hu at 1. done.
Qed.

Lemma lstrip_blank l x : blank l → PyStr.lstrip (l +:+ x) = PyStr.lstrip x.
Proof.
  induction l as [|c l IH]; [done|]. intros [Hc Hl].
  change (String c l +:+ x) with (String c (l +:+ x)).
  apply is_space_white in Hc. by rewrite lstrip_cons, Hc, IH.
Qed.

Lemma rstrip_blank r : blank r → PyStr.rstrip r = "".
Proof.
  induction r as [|c r IH]; [done|]. intros [Hc Hr].
  apply is_space_white in Hc. by rewrite rstrip_cons, (IH Hr), Hc.
Qed.

Lemma rstrip_app_blank x r : blank r → PyStr.rstrip (x +:+ r) = PyStr.rstrip x.
Proof.
  intros Hr. induction x as [|c x IH]; [by apply rstrip_blank|].
  change (String c x +:+ r) with (String c (x +:+ r)). by rewrite !rstrip_cons, IH.
Qed.

Lemma grouped_head s ds : grouped s ds → ∃ c d s', s = String c s' ∧ digit c d.
Proof. destruct 1; eauto. Qed.

(** A text of digits keeps its last character, a digit, when white space
    is taken from its end. *)
Lemma grouped_rstrip s ds : grouped s ds → PyStr.rstrip s = s ∧ s ≠ "".
Proof.
  induction 1 as [c d Hd|c d s ds Hd Hs [IH Hne]|c d s ds Hd Hs [IH Hne]].
  - rewrite rstrip_cons. change (PyStr.rstrip "") with "".
    by rewrite (digit_not_space c d Hd).
  - rewrite rstrip_cons, IH. by destruct s.
  - rewrite !rstrip_cons, IH. by destruct s.
Qed.

Lemma decimal_shift acc d ds :
  ((10 * acc + d) * 10 ^ Z.of_nat (length ds) + decimal ds
   = acc * 10 ^ Z.of_nat (length (d :: ds)) + decimal (d :: ds))%Z.
Proof.
  cbn [length decimal]. rewrite Nat2Z.inj_succ, Z.pow_succ_r by lia. lia.
Qed.

(** What [digits] reads is a text of digits, and its value in base ten
    after the digits read before. *)
Lemma digits_grouped s prev acc z :
  PyStr.digits acc prev s = Some z →
  (prev = true ∧ s = "" ∧ z = acc) ∨
  (∃ ds, grouped s ds ∧ z = (acc * 10 ^ Z.of_nat (length ds) + decimal ds)%Z) ∨
  (prev = true ∧ ∃ s' ds, s = String "_" s' ∧ grouped s' ds ∧
     z = (acc * 10 ^ Z.of_nat (length ds) + decimal ds)%Z).
Proof.
  revert prev acc. induction s as [|c s IH]; intros prev acc.
  - simpl. destruct prev; [|done]. intros [= <-]. by left.
  - rewrite digits_cons. destruct (PyStr.digit_val c) as [d|] eqn:Hc.
    + apply digit_val_digit in Hc. intros H. right. left.
      destruct (IH _ _ H) as [(_ & -> & ->)|[(ds & Hg & ->)|(_ & s' & ds & -> & Hg & ->)]].
      * exists [d]. split; [by constructor|]. simpl. lia.
      * exists (d :: ds). split; [by constructor|]. apply decimal_shift.
      * exists (d :: ds). split; [by constructor|]. apply decimal_shift.
    + destruct (Ascii.eqb_spec c "_") as [->|]; [|done].
      destruct prev; [|done]. simpl. intros H. right. right. split; [done|].
      destruct (IH _ _ H) as [(? & _)|[(ds & Hg & ->)|(? & _)]]; [done| |done].
      by exists s, ds.
Qed.

Lemma grouped_digits s ds :
  grouped s ds →
  ∀ acc prev,
    PyStr.digits acc prev s
      = Some (acc * 10 ^ Z.of_nat (length ds) + decimal ds)%Z.
Proof.
  induction 1 as [c d Hd|c d s ds Hd Hs IH|c d s ds Hd Hs IH]; intros acc prev;
    rewrite digits_cons; pose proof Hd as Hv; apply digit_val_digit in Hv; rewrite Hv.
  - simpl. f_equal. lia.
  - rewrite IH. f_equal. apply decimal_shift.
  - rewrite digits_cons. change (PyStr.digit_val "_") with (@None Z).
    change (Ascii.eqb "_" "_" && true) with true. cbv iota.
    rewrite IH. f_equal. apply decimal_shift.
Qed.

Lemma grouped_scanned s ds : grouped s ds → PyStr.scanned s = Z.of_nat (length ds).
Proof.
  induction 1 as [c d Hd|c d s ds Hd Hs IH|c d s ds Hd Hs IH];
    rewrite scanned_cons; pose proof Hd as Hv; apply digit_val_digit in Hv; rewrite Hv.
  - simpl. lia.
  - rewrite IH. cbn [length]. lia.
  - rewrite scanned_cons. change (PyStr.digit_val "_") with (@None Z).
    change (Ascii.eqb "_" "_") with true. cbv iota. rewrite IH. cbn [length]. lia.
Qed.

(** The number after the sign is a text of at most 4300 digits. *)
Lemma unsigned_spec s z :
  PyStr.unsigned s = Some z ↔
  ∃ ds, grouped s ds ∧ (Z.of_nat (length ds) ≤ 4300)%Z ∧ z = decimal ds.
Proof.
  unfold PyStr.unsigned, PyStr.int_max_str_digits. split.
  - destruct (Z.ltb_spec 4300 (PyStr.scanned s)) as [|Hlen]; [done|]. intros H.
    destruct (digits_grouped _ _ _ _ H) as [(? & _)|[(ds & Hg & ->)|(? & _)]]; [done| |done].
    exists ds. split; [done|]. rewrite (grouped_scanned s ds Hg) in Hlen.
    split; [done|lia].
  - intros (ds & Hg & Hlen & ->). rewrite (grouped_scanned s ds Hg).
    destruct (Z.ltb_spec 4300 (Z.of_nat (length ds))) as [|_]; [lia|].
    by rewrite (grouped_digits s ds Hg).
Qed.

(** [int] reads the numerals, and reads a numeral as its integer. *)
Lemma int_numeral t z : PyStr.int t = Some z ↔ numeral t z.
Proof.
  split.
  - unfold PyStr.int. destruct (lstrip_spec t) as (l & Ht & Hl).
    destruct (rstrip_spec (PyStr.lstrip t)) as (r & Hu & Hr).
    destruct (PyStr.rstrip (PyStr.lstrip t)) as [|c v]; [done|].
    rewrite Ht, Hu. clear Ht Hu.
    destruct (Ascii.eqb_spec c "+") as [->|_].
    { intros (ds & Hg & Hlen & ->)%unsigned_spec. by apply (numeral_plus l v r ds). }
    destruct (Ascii.eqb_spec c "-") as [->|_].
    { intros (x & (ds & Hg & Hlen & ->)%unsigned_spec & ->)%fmap_Some.
      by apply (numeral_minus l v r ds). }
    intros (ds & Hg & Hlen & ->)%unsigned_spec.
    by apply (numeral_plain l (String c v) r ds).
  - unfold PyStr.int.
    destruct 1 as [l s r ds Hl Hg Hlen Hr|l s r ds Hl Hg Hlen Hr|l s r ds Hl Hg Hlen Hr];
      rewrite (lstrip_blank _ _ Hl);
      destruct (grouped_rstrip s ds Hg) as [Hs Hne];
      destruct (grouped_head s ds Hg) as (c & d & s' & -> & Hd).
    + change (String c s' +:+ r) with (String c (s' +:+ r)).
      rewrite lstrip_cons, (digit_not_space c d Hd).
      change (String c (s' +:+ r)) with (String c s' +:+ r).
      rewrite (rstrip_app_blank _ _ Hr), Hs.
      rewrite (digit_not c d "+" Hd), (digit_not c d "-" Hd) by (left; vm_compute; lia).
      apply unsigned_spec. by exists ds.
    + change ("+" +:+ String c s' +:+ r) with (String "+" (String c s' +:+ r)).
      rewrite lstrip_cons. change (PyStr.is_space "+") with false. cbv iota.
      rewrite rstrip_cons, (rstrip_app_blank _ _ Hr), Hs.
      change (Ascii.eqb "+" "+") with true. cbv iota.
      apply unsigned_spec. by exists ds.
    + change ("-" +:+ String c s' +:+ r) with (String "-" (String c s' +:+ r)).
      rewrite lstrip_cons. change (PyStr.is_space "-") with false. cbv iota.
      rewrite rstrip_cons, (rstrip_app_blank _ _ Hr), Hs.
      change (Ascii.eqb "-" "+") with false. change (Ascii.eqb "-" "-") with true.
      cbv iota. apply fmap_Some. exists (decimal ds). split; [|done].
      apply unsigned_spec. by exists ds.
Qed.

(** *** The cut of a weight string *)

Lemma occurs_space w : PyStr.occurs " " w = false ↔ no_space w.
Proof.
  induction w as [|c w IH]; [done|]. rewrite occurs_unfold, startswith_cons.
  change (no_space (String c w)) with (c ≠ " "%char ∧ no_space w).
  destruct (Ascii.eqb_spec " " c) as [<-|Hc].
  - rewrite startswith_nil. split; [done|]. by intros [? _].
  - rewrite orb_false_l, IH. split; [|by intros [_ ?]].
    intros ?. split; [congruence|done].
Qed.

Lemma partition_space_cut n k :
  no_space n → PyStr.partition " " (n +:+ " " +:+ k) = (n, " ", k).
Proof.
  induction n as [|c n IH].
  - intros _. change ("" +:+ " " +:+ k) with (String " " k).
    rewrite partition_cons, startswith_cons.
    change (Ascii.eqb " " " ") with true. cbv iota. by rewrite startswith_nil.
  - intros [Hc Hn].
    change (String c n +:+ " " +:+ k) with (String c (n +:+ " " +:+ k)).
    rewrite partition_cons, startswith_cons.
    destruct (Ascii.eqb_spec " " c) as [<-|_]; [done|]. by rewrite (IH Hn).
Qed.

(** A weight string with a space is cut at its first space, and there
    only. *)
Lemma weight_cut w n k :
  w = n +:+ " " +:+ k ∧ no_space n ↔
  PyStr.occurs " " w = true ∧ n = before_space w ∧ k = after_space w.
Proof.
  split.
  - intros [-> Hn]. pose proof (partition_space_cut n k Hn) as Hp.
    unfold before_space, after_space. rewrite Hp. split; [|done].
    destruct (PyStr.occurs " " (n +:+ " " +:+ k)) eqn:E; [done|].
    by rewrite (partition_space_absent _ E) in Hp.
  - intros (Hocc & -> & ->). destruct (partition_space_found w Hocc) as (_ & Hw & Hb).
    split; [done|]. by apply occurs_space.
Qed.

Lemma weight_cut_found w :
  PyStr.occurs " " w = true →
  w = before_space w +:+ " " +:+ after_space w ∧ no_space (before_space w).
Proof. intros Hocc. by apply weight_cut. Qed.

Lemma bad_weight_ill_formed w : bad_weight w ↔ ill_formed w.
Proof.
  unfold bad_weight, ill_formed. split.
  - intros [Hw|Hint]; [left; by apply occurs_space|].
    destruct (PyStr.occurs " " w) eqn:Hocc; [|left; by apply occurs_space].
    right. exists (before_space w), (after_space w).
    destruct (weight_cut_found w Hocc) as [Hw Hn].
    split; [done|]. split; [done|]. intros z Hz%int_numeral. congruence.
  - intros [Hw|(n & k & Hw & Hn & Hz)]; [left; by apply occurs_space|]. right.
    destruct (proj1 (weight_cut w n k) (conj Hw Hn)) as (_ & <- & _).
    destruct (PyStr.int n) as [z|] eqn:E; [|done]. by apply int_numeral, Hz in E.
Qed.

Lemma last_index {A} (P : A → Prop) `{∀ x, Decision (P x)} (l : list A) :
  Exists P l →
  ∃ i x, l !! i = Some x ∧ P x ∧ ∀ j y, i < j → l !! j = Some y → ¬ P y.
Proof.
  induction l as [|x l IH]; [by intros ?%Exists_nil|].
  intros Hex. destruct (decide (Exists P l)) as [Hl|Hl].
  - destruct (IH Hl) as (i & y & Hi & Hy & Hlast). exists (S i), y.
    split; [done|]. split; [done|].
    intros [|j] y' Hj; [lia|]. simpl. apply Hlast. lia.
  - apply Exists_cons in Hex as [Hx|?]; [|done]. exists 0, x.
    split; [done|]. split; [done|]. intros [|j] y Hj Hy Py; [lia|].
    apply Hl, Exists_exists. exists y. split; [by eapply list_elem_of_lookup_2|done].
Qed.

(** The dictionary of the comprehension maps [k] to the integer of the
    last weight string whose text after the first space is [k]. *)
Lemma dict_comp_lookup asp a k z :
  dict_comp asp ∅ = inr a →
  a !! k = Some z ↔
  ∃ i n, asp !! i = Some (n +:+ " " +:+ k) ∧ no_space n ∧ numeral n z ∧
    ∀ j w, i < j → asp !! j = Some w →
      ∀ n', no_space n' → w ≠ n' +:+ " " +:+ k.
Proof.
  intros Hd. destruct (dict_comp_spec asp ∅ a Hd) as (Hgood & Hkeep & _ & Hlast).
  assert (∀ j w, asp !! j = Some w → PyStr.occurs " " w = true) as Hocc.
  { intros j w Hj. destruct (PyStr.occurs " " w) eqn:E; [done|].
    eapply Forall_forall in Hgood; [|by eapply list_elem_of_lookup_2].
    destruct Hgood. by left. }
  split.
  - intros Hk.
    assert (Exists (λ w, after_space w = k) asp) as Hex.
    { destruct (decide (Exists (λ w, after_space w = k) asp)) as [|Hn]; [done|].
      rewrite Hkeep, lookup_empty in Hk; [done|].
      intros w Hw Hwk. apply Hn, Exists_exists. by exists w. }
    destruct (last_index _ asp Hex) as (i & w & Hi & Hwk & Hlater). subst k.
    destruct (weight_cut_found w (Hocc i w Hi)) as [Hcut Hn].
    exists i, (before_space w). rewrite <- Hcut.
    split; [done|]. split; [done|]. split.
    + apply int_numeral. rewrite <- Hk. symmetry. apply (Hlast i w Hi).
      intros j w' Hij Hj. by apply (Hlater j w').
    + intros j w' Hij Hj n' Hn' Hw'. apply (Hlater j w' Hij Hj).
      by destruct (proj1 (weight_cut w' n' (after_space w)) (conj Hw' Hn'))
        as (_ & _ & ->).
  - intros (i & n & Hi & Hn & Hz & Hlater).
    destruct (proj1 (weight_cut _ n k) (conj eq_refl Hn)) as (_ & Hb & Ha).
    apply int_numeral in Hz.
    assert (a !! after_space (n +:+ " " +:+ k)
              = PyStr.int (before_space (n +:+ " " +:+ k))) as Hl.
    { apply (Hlast i _ Hi). intros j w' Hij Hj Heq.
      destruct (weight_cut_found w' (Hocc j w' Hj)) as [Hcut Hn'].
      apply (Hlater j w' Hij Hj (before_space w') Hn').
      by rewrite Heq, <- Ha in Hcut. }
    by rewrite <- Ha, <- Hb, Hz in Hl.
Qed.

(** *** The dictionary [out] *)

Section dict.
Context {V : Type}.
Implicit Types (d : list (string * V)) (k : string) (v : V).

Lemma dict_get_Some d k v : dict_get d k = Some v → (k, v) ∈ d.
Proof.
  induction d as [|[k' v'] d IH]; simpl; [done|].
  destruct (decide (k' = k)) as [->|]; [intros [= ->]|]; set_solver.
Qed.

Lemma dict_get_None d k : dict_get d k = None → k ∉ d.*1.
Proof.
  induction d as [|[k' v'] d IH]; simpl; [by intros _ ?%elem_of_nil|].
  destruct (decide (k' = k)) as [->|]; [done|].
  intros H [?|?]%elem_of_cons; [done|]. by apply IH.
Qed.

Lemma dict_get_elem d k v : NoDup d.*1 → (k, v) ∈ d → dict_get d k = Some v.
Proof.
  induction d as [|[k' v'] d IH]; simpl; [by intros _ ?%elem_of_nil|].
  intros [Hk Hnd]%NoDup_cons [[= -> ->]|Hin]%elem_of_cons.
  - by rewrite decide_True.
  - rewrite decide_False; [by apply IH|]. intros ->. apply Hk.
    apply list_elem_of_fmap. by exists (k, v).
Qed.

Lemma dict_set_absent d k v : dict_get d k = None → dict_set d k v = d ++ [(k, v)].
Proof.
  induction d as [|[k' v'] d IH]; simpl; [done|].
  destruct (decide (k' = k)); [done|]. intros H. by rewrite IH.
Qed.

Lemma dict_set_keys d k v v0 : dict_get d k = Some v0 → (dict_set d k v).*1 = d.*1.
Proof.
  induction d as [|[k' v'] d IH]; simpl; [done|].
  destruct (decide (k' = k)) as [->|]; [done|]. intros H. simpl. f_equal. by apply IH.
Qed.

Lemma dict_set_elem d k v k' v' :
  (k', v') ∈ dict_set d k v → (k' = k ∧ v' = v) ∨ (k', v') ∈ d.
Proof.
  induction d as [|[k0 v0] d IH]; simpl.
  - intros [= -> ->]%list_elem_of_singleton. by left.
  - destruct (decide (k0 = k)) as [->|].
    + intros [[= -> ->]|?]%elem_of_cons; [by left|]. right. by right.
    + intros [[= -> ->]|?]%elem_of_cons; [right; by left|].
      destruct IH as [?|?]; [done|by left|]. right. by right.
Qed.

End dict.

(** Appending [x] to the group of [k] adds [x] to the entries of [out]. *)
Lemma dict_set_append (out : list (string * list loc)) k vl x :
  dict_get out k = Some vl →
  concat (dict_set out k (vl ++ [x])).*2 ≡ₚ x :: concat out.*2.
Proof.
  induction out as [|[k' v'] out IH]; simpl; [done|].
  destruct (decide (k' = k)) as [->|].
  - intros [= ->]. simpl. rewrite <- app_assoc. simpl.
    by rewrite <- Permutation_middle.
  - intros H. simpl. rewrite (IH H). by rewrite <- Permutation_middle.
Qed.

(** *** Merging a record into an entry *)

Lemma ensure_data_spec h l it :
  val h l = Some it →
  ∃ h', (match data it with
         | None => set_data l (Some ["None"])
         | Some _ => mret tt
         end) h = inr (tt, h') ∧
    val h' l = Some (mkItem (item it) (Some (marker it)) (aspects it)) ∧
    ∀ l', l' ≠ l → val h' l' = val h l'.
Proof.
  intros Hl. unfold marker. destruct (data it) as [d|] eqn:E.
  - exists h. split; [done|]. split; [|done]. rewrite Hl. destruct it. simpl in *. by subst.
  - by apply set_data_spec.
Qed.

Lemma merge_into_spec h vl x xo :
  val h x = Some xo → x ∉ vl → entries h vl →
  (∃ v vo h',
      v ∈ vl ∧ val h v = Some vo ∧ aspects vo = aspects xo ∧
      merge_into vl x h = inr (true, h') ∧
      val h' v = Some (mkItem (item vo) (Some (marker vo ++ marker xo)) (aspects vo)) ∧
      (∃ d, val h' x = Some (mkItem (item xo) d (aspects xo))) ∧
      (∀ l, l ≠ v → l ≠ x → val h' l = val h l))
  ∨ (merge_into vl x h = inr (false, h) ∧
     ∀ v vo, v ∈ vl → val h v = Some vo → aspects vo ≠ aspects xo).
Proof.
  intros Hx. induction vl as [|v vl IH]; intros Hnin Hvl.
  { right. split; [done|]. by intros v vo ?%elem_of_nil. }
  apply not_elem_of_cons in Hnin as [Hxv Hnin].
  apply Forall_cons in Hvl as [[vo Hv] Hvl]. simpl.
  rewrite (bind_inr _ _ _ _ _ (read_item_val _ _ _ Hv)).
  rewrite (bind_inr _ _ _ _ _ (read_item_val _ _ _ Hx)).
  case_bool_decide as Hasp.
  - destruct (IH Hnin Hvl)
      as [(v' & vo' & h' & Hin & Hv' & Ha & Hrun & Hnew & Hxd & Hothers)|[Hrun Hnone]].
    + left. exists v', vo', h'. repeat split; try done. by right.
    + right. split; [done|]. intros v' vo' [->|Hin]%elem_of_cons Hv'.
      * congruence.
      * by eapply Hnone.
  - left.
    destruct (ensure_data_spec h v vo Hv) as (ha & Hrun_a & Hva & Ha).
    rewrite (bind_inr _ _ _ _ _ Hrun_a).
    assert (val ha x = Some xo) as Hxa by (by rewrite Ha).
    rewrite (bind_inr _ _ _ _ _ (read_item_val _ _ _ Hxa)).
    destruct (ensure_data_spec ha x xo Hxa) as (hb & Hrun_b & Hxb & Hb).
    rewrite (bind_inr _ _ _ _ _ Hrun_b).
    assert (val hb v = Some (mkItem (item vo) (Some (marker vo)) (aspects vo)))
      as Hvb by (rewrite Hb; done).
    rewrite (bind_inr _ _ _ _ _ (read_item_val _ _ _ Hvb)).
    rewrite (bind_inr _ _ _ _ _ (read_item_val _ _ _ Hxb)).
    simpl.
    destruct (set_data_spec hb v (Some (marker vo ++ marker xo)) _ Hvb)
      as (h' & Hrun & Hv' & Hothers).
    rewrite (bind_inr _ _ _ _ _ Hrun).
    exists v, vo, h'. split; [by left|]. do 4 (split; [done|]). split.
    + eexists. rewrite Hothers by done. exact Hxb.
    + intros l Hlv Hlx. by rewrite Hothers, Hb, Ha.
Qed.

Lemma variants_snoc rs r :
  rs ≠ [] →
  variants (rs ++ [r]) = Some (default ["None"] (variants rs) ++ marker r).
Proof.
  destruct rs as [|r1 [|r2 rs]]; intros Hne; [done| |].
  - simpl. by rewrite app_nil_r.
  - change (variants ((r1 :: r2 :: rs) ++ [r]))
      with (Some (concat (marker <$> (r1 :: r2 :: rs) ++ [r]))).
    rewrite fmap_app, concat_app. simpl. by rewrite app_nil_r.
Qed.

Lemma elem_of_groups (out : list (string * list loc)) l :
  l ∈ concat out.*2 ↔ ∃ k vl, (k, vl) ∈ out ∧ l ∈ vl.
Proof.
  induction out as [|[k0 vl0] out IH]; simpl.
  - split; [by intros ?%elem_of_nil|]. by intros (k & vl & ?%elem_of_nil & _).
  - rewrite elem_of_app, IH. split.
    + intros [Hl|(k & vl & Hin & Hl)]; [exists k0, vl0|exists k, vl];
        (split; [|done]); [by left|by right].
    + intros (k & vl & [[= -> ->]|Hin]%elem_of_cons & Hl); [by left|].
      right. by exists k, vl.
Qed.

(** *** The loop of [load_aspects] *)

Section dedupe.
(** The heap [h1] in which the loop starts, and the records [raw]. *)
Variables (h1 : Heap) (raw : list loc).
Hypothesis raw_NoDup : NoDup raw.
Hypothesis raw_entries : entries h1 raw.

Lemma members_snoc pre x l xo :
  val h1 x = Some xo →
  members h1 (pre ++ [x]) l =
    members h1 pre l ++ (if decide (cls_at h1 x = cls_at h1 l) then [xo] else []).
Proof.
  intros Hx. unfold members. rewrite filter_app, omap_app. f_equal.
  rewrite filter_cons, filter_nil. case_decide; simpl; [|done]. by rewrite Hx.
Qed.

Lemma members_self pre l : l ∈ pre → is_Some (val h1 l) → members h1 pre l ≠ [].
Proof.
  intros Hl [it Hit] Hnil.
  assert (it ∈ members h1 pre l) as Hin; [|by rewrite Hnil in Hin; apply elem_of_nil in Hin].
  unfold members. apply list_elem_of_omap. exists l. split; [|done].
  by apply list_elem_of_filter.
Qed.

(** A record of a new name or of new attributes becomes an entry. *)
Lemma dedupe_inv_add pre x post out out' h xo :
  raw = pre ++ x :: post →
  dedupe_inv h1 pre out h →
  val h1 x = Some xo →
  cls_at h1 x ∉ cls_at h1 <$> concat out.*2 →
  concat out'.*2 ≡ₚ x :: concat out.*2 →
  NoDup out'.*1 →
  (∀ k vl l, (k, vl) ∈ out' → l ∈ vl →
     l ∈ pre ++ [x] ∧ item <$> val h1 l = Some k) →
  dedupe_inv h1 (pre ++ [x]) out' h.
Proof.
  intros Hraw [Hcls Hrest Hkeys Hgroup Hnd Hrepr Hdata] Hx Hnew Hperm Hkeys' Hgroup'.
  assert (x ∉ pre) as Hxpre.
  { rewrite Hraw in raw_NoDup. apply NoDup_app in raw_NoDup as (_ & Hdisj & _).
    intros Hin. apply (Hdisj x Hin). by left. }
  split; try done.
  - intros l Hl. apply Hrest. intros Hin. apply Hl, elem_of_app. by left.
  - rewrite Hperm. simpl. by apply NoDup_cons.
  - intros l Hl. rewrite Hperm. simpl.
    apply elem_of_app in Hl as [Hl|Hl].
    + right. by apply Hrepr.
    + apply list_elem_of_singleton in Hl as ->. by left.
  - intros l Hl. rewrite Hperm in Hl. rewrite (members_snoc _ _ _ _ Hx).
    apply elem_of_cons in Hl as [->|Hl].
    + rewrite decide_True by done.
      assert (members h1 pre x = []) as ->.
      { destruct (members h1 pre x) as [|it ms] eqn:E; [done|]. exfalso.
        assert (it ∈ members h1 pre x) as Hin by (rewrite E; by left).
        apply list_elem_of_omap in Hin as (l & Hl & _).
        apply list_elem_of_filter in Hl as [Hc Hl].
        apply Hnew. rewrite <- Hc. by apply Hrepr. }
      simpl. by rewrite Hrest, Hx.
    + rewrite decide_False, app_nil_r; [by apply Hdata|].
      intros Hc. apply Hnew. rewrite Hc. by apply list_elem_of_fmap_2.
Qed.

(** A record with the name and the attributes of the entry [v] adds its
    variants to those of [v]. *)
Lemma dedupe_inv_merge pre x post out h h' xo v vo :
  raw = pre ++ x :: post →
  dedupe_inv h1 pre out h →
  val h1 x = Some xo →
  v ∈ concat out.*2 → val h v = Some vo → cls vo = cls xo →
  val h' v = Some (mkItem (item vo) (Some (marker vo ++ marker xo)) (aspects vo)) →
  (∃ d, val h' x = Some (mkItem (item xo) d (aspects xo))) →
  (∀ l, l ≠ v → l ≠ x → val h' l = val h l) →
  dedupe_inv h1 (pre ++ [x]) out h'.
Proof.
  intros Hraw [Hcls Hrest Hkeys Hgroup Hnd Hrepr Hdata] Hx Hv Hvo Hc Hv' [d Hx'] Hothers.
  assert (x ∉ pre) as Hxpre.
  { rewrite Hraw in raw_NoDup. apply NoDup_app in raw_NoDup as (_ & Hdisj & _).
    intros Hin. apply (Hdisj x Hin). by left. }
  assert (∀ l, l ∈ concat out.*2 → l ∈ pre) as Hpre.
  { intros l (k & vl & Hin & Hl)%elem_of_groups. by eapply Hgroup. }
  assert (cls_at h1 v = Some (cls vo)) as Hcv by (by rewrite <- Hcls, Hvo).
  assert (cls_at h1 x = Some (cls xo)) as Hcx by (unfold cls_at; by rewrite Hx).
  assert (x ≠ v) as Hxv by (intros ->; by apply Hxpre, Hpre).
  split; try done.
  - intros l. destruct (decide (l = v)) as [->|Hlv]; [by rewrite Hv', Hcv|].
    destruct (decide (l = x)) as [->|Hlx]; [by rewrite Hx', Hcx|].
    by rewrite Hothers.
  - intros l Hl. apply not_elem_of_app in Hl as [Hl Hlx%not_elem_of_cons].
    rewrite Hothers; [by apply Hrest| |by apply Hlx]. intros ->. by apply Hl, Hpre.
  - intros k vl l Hin Hl. destruct (Hgroup k vl l Hin Hl). split; [|done].
    apply elem_of_app. by left.
  - intros l [Hl|Hl]%elem_of_app; [by apply Hrepr|].
    apply list_elem_of_singleton in Hl as ->. rewrite Hcx, <- Hc, <- Hcv.
    by apply list_elem_of_fmap_2.
  - intros l Hl. rewrite (members_snoc _ _ _ _ Hx).
    destruct (decide (l = v)) as [->|Hlv].
    + rewrite decide_True by congruence. rewrite Hv'. simpl.
      rewrite variants_snoc.
      * specialize (Hdata v Hv). rewrite Hvo in Hdata. simpl in Hdata.
        injection Hdata as Hdata. unfold marker at 1. by rewrite Hdata.
      * apply members_self; [by apply Hpre|].
        unfold cls_at in Hcv. by destruct (val h1 v).
    + rewrite decide_False, app_nil_r.
      * rewrite Hothers; [by apply Hdata|done|]. intros ->. by apply Hxpre, Hpre.
      * intros Hcl. apply Hlv. eapply (NoDup_fmap_inj (cls_at h1)); [exact Hnd|done..|].
        congruence.
Qed.

(** One turn of the loop keeps the invariant. *)
Lemma dedupe_step pre x post out h :
  raw = pre ++ x :: post →
  dedupe_inv h1 pre out h →
  ∃ out' h', dedupe out x h = inr (out', h') ∧ dedupe_inv h1 (pre ++ [x]) out' h'.
Proof.
  intros Hraw Hinv. pose proof Hinv as [Hcls Hrest Hkeys Hgroup Hnd Hrepr Hdata].
  assert (x ∉ pre) as Hxpre.
  { rewrite Hraw in raw_NoDup. apply NoDup_app in raw_NoDup as (_ & Hdisj & _).
    intros Hin. apply (Hdisj x Hin). by left. }
  assert (is_Some (val h1 x)) as [xo Hx].
  { eapply Forall_forall in raw_entries; [exact raw_entries|]. rewrite Hraw.
    apply elem_of_app. right. by left. }
  assert (val h x = Some xo) as Hxh by (by rewrite Hrest).
  assert (cls_at h1 x = Some (cls xo)) as Hcx by (unfold cls_at; by rewrite Hx).
  assert (∀ k vl l, (k, vl) ∈ out → l ∈ vl →
            ∃ lo, val h l = Some lo ∧ item lo = k ∧ cls_at h1 l = Some (cls lo)) as Hat.
  { intros k vl l Hin Hl. destruct (Hgroup k vl l Hin Hl) as [_ Hk].
    pose proof (Hcls l) as Hl'. unfold cls_at in Hl' |- *.
    destruct (val h1 l) as [l1|]; [|done]. destruct (val h l) as [lo|]; [|done].
    exists lo. simpl in Hl', Hk. assert (cls lo = cls l1) as Hc by congruence.
    assert (item l1 = k) as Hk' by congruence.
    split; [done|]. split; [|by rewrite Hc]. unfold cls in Hc. congruence. }
  unfold dedupe. rewrite (bind_inr _ _ _ _ _ (read_item_val _ _ _ Hxh)).
  destruct (dict_get out (item xo)) as [vl|] eqn:Hget.
  - pose proof (dict_get_Some _ _ _ Hget) as Hin.
    assert (x ∉ vl) as Hxvl by (intros Hl; by apply Hxpre, (Hgroup _ _ _ Hin Hl)).
    assert (entries h vl) as Hvl.
    { apply Forall_forall. intros l Hl.
      destruct (Hat _ _ _ Hin Hl) as (lo & -> & _). by eexists. }
    destruct (merge_into_spec h vl x xo Hxh Hxvl Hvl)
      as [(v & vo & h' & Hv & Hvo & Ha & Hrun & Hv' & Hx' & Hothers)|[Hrun Hnone]];
      rewrite (bind_inr _ _ _ _ _ Hrun).
    + exists out, h'. split; [done|].
      destruct (Hat _ _ _ Hin Hv) as (vo' & Hvo' & Hk & _).
      assert (vo' = vo) as -> by congruence.
      eapply dedupe_inv_merge; try done.
      * apply elem_of_groups. by exists (item xo), vl.
      * unfold cls. by rewrite Hk, Ha.
    + eexists _, h. split; [done|].
      eapply dedupe_inv_add; try done.
      * intros (l & Hc & (k & vl' & Hin' & Hl)%elem_of_groups)%list_elem_of_fmap.
        destruct (Hat _ _ _ Hin' Hl) as (lo & Hlo & Hk & Hcl).
        rewrite Hcx, Hcl in Hc. injection Hc as Hi Hasp.
        assert (vl' = vl) as ->.
        { apply (dict_get_elem _ _ _ Hkeys) in Hin'. congruence. }
        by eapply Hnone.
      * by apply dict_set_append.
      * by rewrite (dict_set_keys _ _ _ _ Hget).
      * intros k vl' l [[-> ->]|Hin']%dict_set_elem Hl.
        -- apply elem_of_app in Hl as [Hl|Hl].
           ++ destruct (Hgroup _ _ _ Hin Hl). split; [|done]. apply elem_of_app. by left.
           ++ apply list_elem_of_singleton in Hl as ->. split; [|by rewrite Hx].
              apply elem_of_app. right. by left.
        -- destruct (Hgroup _ _ _ Hin' Hl). split; [|done]. apply elem_of_app. by left.
  - pose proof (dict_get_None _ _ Hget) as Hnk.
    eexists _, h. split; [done|]. rewrite (dict_set_absent _ _ _ Hget).
    eapply dedupe_inv_add; try done.
    + intros (l & Hc & (k & vl' & Hin' & Hl)%elem_of_groups)%list_elem_of_fmap.
      destruct (Hat _ _ _ Hin' Hl) as (lo & Hlo & Hk & Hcl).
      rewrite Hcx, Hcl in Hc. injection Hc as Hi Hasp.
      apply Hnk. apply list_elem_of_fmap. exists (k, vl'). split; [|done].
      simpl. congruence.
    + rewrite fmap_app, concat_app. simpl.
      by rewrite Permutation_app_comm.
    + rewrite fmap_app. simpl. apply NoDup_app. split; [done|]. split.
      * intros k Hk ->%list_elem_of_singleton. done.
      * apply NoDup_singleton.
    + intros k vl l [Hin'|Hin']%elem_of_app Hl.
      * destruct (Hgroup _ _ _ Hin' Hl). split; [|done]. apply elem_of_app. by left.
      * apply list_elem_of_singleton in Hin'. injection Hin' as -> ->.
        apply list_elem_of_singleton in Hl as ->. split; [|by rewrite Hx].
        apply elem_of_app. right. by left.
Qed.

End dedupe.

(** *** Parsing the records *)

Lemma parsed_or_malformed item_dict :
  (∃ recs, parsed item_dict recs) ∨ Exists malformed item_dict.
Proof.
  induction item_dict as [|p d IH]; [left; exists []; constructor|].
  destruct (raw_fields p.1 p.2) as [e|r] eqn:E.
  - right. left. by exists e.
  - destruct IH as [[recs IH]|IH]; [left|right; by right].
    exists (r :: recs). by constructor.
Qed.

Lemma map_list_from_raw item_dict recs h :
  parsed item_dict recs →
  map_list (λ pair, from_raw pair.1 pair.2) item_dict h
    = inr (seq (length h) (length recs), h ++ (ItemO <$> recs)).
Proof.
  intros Hp. revert h. induction Hp as [|p r d recs Hr Hp IH]; intros h; simpl.
  - by rewrite app_nil_r.
  - assert (from_raw p.1 p.2 h = inr (length h, h ++ [ItemO r])) as Hf
      by (unfold from_raw; by rewrite Hr).
    rewrite (bind_inr _ _ _ _ _ Hf), (bind_inr _ _ _ _ _ (IH _)).
    unfold mret, M_ret. rewrite length_app, <- app_assoc. simpl.
    by rewrite Nat.add_1_r.
Qed.

Lemma map_list_from_raw_fail item_dict h :
  Exists malformed item_dict →
  ∃ e, map_list (λ pair, from_raw pair.1 pair.2) item_dict h = inl e.
Proof.
  intros Hex. revert h. induction Hex as [p d [e He]|p d Hex IH]; intros h; simpl.
  - exists e. apply bind_inl. unfold from_raw. by rewrite He.
  - destruct (raw_fields p.1 p.2) as [e|r] eqn:Hr.
    + exists e. apply bind_inl. unfold from_raw. by rewrite Hr.
    + assert (from_raw p.1 p.2 h = inr (length h, h ++ [ItemO r])) as Hf
        by (unfold from_raw; by rewrite Hr).
      rewrite (bind_inr _ _ _ _ _ Hf). destruct (IH (h ++ [ItemO r])) as [e He].
      exists e. by apply bind_inl.
Qed.

Lemma raw_vals h0 recs :
  Forall2 (λ l r, val (h0 ++ (ItemO <$> recs)) l = Some r)
    (seq (length h0) (length recs)) recs.
Proof.
  revert h0. induction recs as [|r recs IH]; intros h0; simpl; constructor.
  - unfold val. by rewrite list_lookup_middle.
  - specialize (IH (h0 ++ [ItemO r])).
    rewrite length_app, <- app_assoc, Nat.add_1_r in IH. exact IH.
Qed.

Lemma members_filter h1 raw recs l c :
  Forall2 (λ l r, val h1 l = Some r) raw recs →
  cls_at h1 l = Some c →
  members h1 raw l = filter (λ r, cls r = c) recs.
Proof.
  intros HF Hc. unfold members. rewrite Hc.
  induction HF as [|l' r raw recs Hl' HF IH]; [done|].
  assert (cls_at h1 l' = Some (cls r)) as Hcl by (unfold cls_at; by rewrite Hl').
  destruct (decide (cls r = c)) as [<-|Hne].
  - rewrite !filter_cons_True by done. simpl. rewrite Hl'. f_equal. apply IH.
  - rewrite !filter_cons_False by congruence. done.
Qed.

Lemma val_app h k l e : val h l = Some e → val (h ++ k) l = Some e.
Proof.
  unfold val. intros H. destruct (h !! l) as [o|] eqn:E; [|done].
  by rewrite (lookup_app_l_Some _ _ _ _ E).
Qed.

(** *** The result of [load_aspects] *)

(** When every record parses, [load_aspects] returns a new list object.
    Its entries have pairwise different combinations of name and
    attributes, every record has its combination in one of them, and the
    variants of an entry are those of the records with its combination, in
    input order. *)
Lemma load_spec item_dict recs h0 :
  parsed item_dict recs →
  ∃ r res hf,
    load_aspects item_dict h0 = inr (r, hf) ∧
    hf !! r = Some (ListO res) ∧
    NoDup res ∧
    (∀ l1 l2 e1 e2, l1 ∈ res → l2 ∈ res →
       val hf l1 = Some e1 → val hf l2 = Some e2 → cls e1 = cls e2 → l1 = l2) ∧
    (∀ rec, rec ∈ recs → ∃ l e, l ∈ res ∧ val hf l = Some e ∧ cls e = cls rec) ∧
    (∀ l, l ∈ res → ∃ e,
       val hf l = Some e ∧
       (∃ rec, rec ∈ recs ∧ cls rec = cls e) ∧
       data e = variants (filter (λ rec, cls rec = cls e) recs)).
Proof.
  intros Hp. unfold load_aspects.
  rewrite (bind_inr _ _ _ _ _ (map_list_from_raw _ _ h0 Hp)).
  set (h1 := h0 ++ (ItemO <$> recs)). set (raw := seq (length h0) (length recs)).
  pose proof (raw_vals h0 recs) as Hvals. fold h1 raw in Hvals.
  assert (NoDup raw) as Hnd by apply NoDup_seq.
  assert (entries h1 raw) as Hent.
  { apply Forall_forall. intros l Hl.
    apply list_elem_of_lookup in Hl as [i Hi].
    destruct (Forall2_lookup_l _ _ _ _ _ Hvals Hi) as (rec & _ & Hrec). by exists rec. }
  destruct (for_each_heap_inv (dedupe_inv h1) dedupe raw [] h1)
    as (out & h' & Hrun & [Hcls Hrest Hkeys Hgroup Hndc Hrepr Hdata]).
  { intros pre x post out h. by apply dedupe_step. }
  { split; simpl;
      [done|done|apply NoDup_nil_2|by intros k vl l ?%elem_of_nil
      |apply NoDup_nil_2|by intros l ?%elem_of_nil|by intros l ?%elem_of_nil]. }
  rewrite (bind_inr _ _ _ _ _ Hrun).
  set (res := concat out.*2) in *.
  assert (∀ l, l ∈ res → ∃ e rec, val h' l = Some e ∧ val h1 l = Some rec ∧
            rec ∈ recs ∧ cls e = cls rec) as Hres.
  { intros l (k & vl & Hin & Hl)%elem_of_groups.
    destruct (Hgroup _ _ _ Hin Hl) as [Hraw _].
    apply list_elem_of_lookup in Hraw as [i Hi].
    destruct (Forall2_lookup_l _ _ _ _ _ Hvals Hi) as (rec & Hrec & Hv1).
    pose proof (Hcls l) as Hc. unfold cls_at in Hc. rewrite Hv1 in Hc.
    destruct (val h' l) as [e|]; [|done]. exists e, rec.
    repeat split; [done|by eapply list_elem_of_lookup_2|]. simpl in Hc. congruence. }
  exists (length h'), res, (h' ++ [ListO res]).
  split; [done|]. split; [by apply list_lookup_middle|].
  split; [by eapply NoDup_fmap_1|]. split; [|split].
  - intros l1 l2 e1 e2 Hl1 Hl2 He1 He2 Hc.
    destruct (Hres l1 Hl1) as (e1' & rec1 & He1' & _).
    destruct (Hres l2 Hl2) as (e2' & rec2 & He2' & _).
    rewrite (val_app _ _ _ _ He1') in He1. rewrite (val_app _ _ _ _ He2') in He2.
    eapply (NoDup_fmap_inj (cls_at h1)); [exact Hndc|done..|].
    rewrite <- !Hcls, He1', He2'. simpl. congruence.
  - intros rec Hrec. apply list_elem_of_lookup in Hrec as [i Hi].
    destruct (Forall2_lookup_r _ _ _ _ _ Hvals Hi) as (l & Hl & Hv1).
    assert (l ∈ raw) as Hraw by (by eapply list_elem_of_lookup_2).
    apply Hrepr, list_elem_of_fmap in Hraw as (l' & Hc & Hl').
    destruct (Hres l' Hl') as (e & rec' & He & Hv1' & _ & Hce). exists l', e.
    split; [done|]. split; [by apply val_app|].
    unfold cls_at in Hc. rewrite Hv1, Hv1' in Hc. simpl in Hc. congruence.
  - intros l Hl. destruct (Hres l Hl) as (e & rec & He & Hv1 & Hrec & Hce).
    exists e. split; [by apply val_app|]. split; [by exists rec|].
    pose proof (Hdata l Hl) as Hd. rewrite He in Hd. simpl in Hd. injection Hd as ->.
    f_equal. apply (members_filter h1 raw recs l); [done|].
    unfold cls_at. rewrite Hv1. simpl. congruence.
Qed.

(** *** The properties of the normaliser *)

(** Two weight strings with the same key: the attributes keep the integer
    of the second. *)
Example repeated_key :
  from_raw "Water" ["1 aqua"; "2 aqua"] []
    = inr (0, [ItemO (mkItem "Water" None {["aqua" := 2%Z]})]).
Proof. by vm_compute. Qed.

(** C8, as the claim states it, fails: it is not so that, when [from_raw]
    returns, every weight string has its key mapped to the integer before
    its first space.  In [repeated_key] both weight strings parse, and the
    first has the numeral of 1 before its space and [aqua] after it, but
    [aqua] is mapped to 2. *)
Lemma repeated_key_keeps_last :
  ¬ ∀ name asp h l h' it w n k z,
      from_raw name asp h = inr (l, h') → val h' l = Some it →
      w ∈ asp → w = n +:+ " " +:+ k → no_space n → numeral n z →
      aspects it !! k = Some z.
Proof.
  intros H.
  specialize (H "Water" ["1 aqua"; "2 aqua"] [] 0 _ _ "1 aqua" "1" "aqua" 1%Z
                repeated_key eq_refl).
  discriminate H; [by left|done|done|].
  apply (numeral_plain "" "1" "" [1%Z]); [done| |done|done].
  constructor. split; [lia|reflexivity].
Qed.

(** A text of 4301 digits is no numeral for [int], one of 4300 digits is:
    the record with the longer one does not parse. *)
Example digit_limit :
  from_raw "Water" [ones 4301 +:+ " aqua"] [] = inl ValueError ∧
  PyStr.int (ones 4301) = None ∧ is_Some (PyStr.int (ones 4300)).
Proof.
  split; [by vm_compute|]. split; [by vm_compute|].
  destruct (PyStr.int (ones 4300)) eqn:E; [by eexists|].
  vm_compute in E. discriminate.
Qed.

(** C8 (amended).  [from_raw] raises an exception exactly when a weight
    string has no space, or has before its first space a text that is no
    numeral: white space other than the space, a sign, and decimal digits
    between two of which an underscore may stand, at most 4300 digits.
    [load_aspects] raises an exception, and returns no list, exactly when
    a record has such a weight string.  When [from_raw] returns, every
    weight string is a numeral without a space, a space and a key, and the
    attributes map a key to the integer of the numeral of the last weight
    string with this key, and map nothing else. *)
Theorem parse_failure :
  (∀ name asp h,
     (∃ e, from_raw name asp h = inl e) ↔ Exists ill_formed asp) ∧
  (∀ item_dict h,
     (∃ e, load_aspects item_dict h = inl e) ↔
     Exists (λ pair, Exists ill_formed pair.2) item_dict) ∧
  (∀ name asp h l h',
     from_raw name asp h = inr (l, h') →
     ∃ it, val h' l = Some it ∧
       Forall (λ w, ∃ n k z,
                 w = n +:+ " " +:+ k ∧ no_space n ∧ numeral n z) asp ∧
       ∀ k z, aspects it !! k = Some z ↔
         ∃ i n, asp !! i = Some (n +:+ " " +:+ k) ∧ no_space n ∧
           numeral n z ∧
           ∀ j w, i < j → asp !! j = Some w →
             ∀ n', no_space n' → w ≠ n' +:+ " " +:+ k).
Proof.
  assert (∀ asp, Exists bad_weight asp ↔ Exists ill_formed asp) as Hill.
  { intros asp. split; intros Hex; (eapply Exists_impl; [exact Hex|]);
      intros w; by apply bad_weight_ill_formed. }
  split; [|split].
  - intros name asp h. rewrite <- Hill. unfold from_raw.
    destruct (raw_fields_cases name asp) as [(e & -> & Hex)|(it & -> & Hd)].
    + split; [done|]. intros _. by exists e.
    + split; [by intros [e [=]]|]. intros Hex.
      destruct (dict_comp_fail asp ∅ Hex) as [e He]. congruence.
  - intros item_dict h.
    assert (Exists malformed item_dict
            ↔ Exists (λ pair, Exists ill_formed pair.2) item_dict) as <-.
    { split; intros Hex; (eapply Exists_impl; [exact Hex|]); intros pair;
        rewrite <- Hill; by apply malformed_iff. }
    split.
    + intros [e He]. destruct (parsed_or_malformed item_dict) as [[recs Hp]|Hex]; [|done].
      destruct (load_spec item_dict recs h Hp) as (r & res & hf & Hrun & _). congruence.
    + intros Hm. destruct (map_list_from_raw_fail item_dict h Hm) as [e He].
      exists e. unfold load_aspects. by apply bind_inl.
  - intros name asp h l h'. unfold from_raw.
    destruct (raw_fields_cases name asp) as [(e & -> & Hex)|(it & -> & Hd)]; [done|].
    intros [= <- <-]. exists it. split; [unfold val; by rewrite list_lookup_middle|].
    split; [|intros k z; by apply dict_comp_lookup].
    destruct (dict_comp_spec asp ∅ _ Hd) as (Hgood & _).
    eapply Forall_impl; [exact Hgood|]. intros w Hw.
    destruct (PyStr.occurs " " w) eqn:Hocc; [|by destruct Hw; left].
    destruct (weight_cut_found w Hocc) as [Hcut Hn].
    destruct (PyStr.int (before_space w)) as [z|] eqn:Hint; [|by destruct Hw; right].
    exists (before_space w), (after_space w), z. by rewrite <- int_numeral.
Qed.

Lemma parse_failure_witness :
  ∃ it, val [ItemO (mkItem "Water" None {["aqua" := 7%Z]})] 0 = Some it ∧
    aspects it !! "aqua" = Some 7%Z.
Proof.
  destruct parse_failure as (_ & _ & Hok).
  destruct (Hok "Water" ["1 aqua"; "7 aqua"] [] 0
              [ItemO (mkItem "Water" None {["aqua" := 7%Z]})])
    as (it & Hit & _ & Hk); [by vm_compute|].
  exists it. split; [exact Hit|]. apply Hk. exists 1, "7".
  split; [done|]. split; [done|]. split.
  - apply (numeral_plain "" "7" "" [7%Z]); [done| |done|done].
    constructor. split; [lia|reflexivity].
  - intros [|[|j]] w Hj; [lia|lia|discriminate].
Defined.

Lemma variants_many rs :
  2 ≤ length rs → variants rs = Some (concat (marker <$> rs)).
Proof. destruct rs as [|r1 [|r2 rs]]; simpl; [lia|lia|done]. Qed.

Lemma filter_two {A} (P : A → Prop) `{∀ x, Decision (P x)} (l : list A) i j a b :
  i < j → l !! i = Some a → l !! j = Some b → P a → P b →
  2 ≤ length (filter P l).
Proof.
  intros Hij Hi Hj Ha Hb. rewrite <- (take_drop_middle l j b Hj).
  rewrite filter_app, filter_cons_True, length_app by done. simpl.
  assert (a ∈ filter P (take j l)) as Hin.
  { apply list_elem_of_filter. split; [done|].
    apply list_elem_of_lookup. exists i. by rewrite lookup_take_lt. }
  destruct (filter P (take j l)); [by apply elem_of_nil in Hin|]. simpl. lia.
Qed.

Lemma cls_eq a b : cls a = cls b ↔ item a = item b ∧ aspects a = aspects b.
Proof. unfold cls. split; [by intros [= -> ->]|by intros [-> ->]]. Qed.

(** C4.  Two records with the same canonical name and the same attributes
    are in one entry of the result and in no other; its variants are those
    of the records with this name and these attributes, in input order,
    with ["None"] for a record without variant (those of the two records,
    when there is no third).  From the catalogue
    [water] the result is the one entry [Water] with the variants [None]
    and [bucket] and the attribute [aqua] of weight 2. *)
Theorem merge_correct item_dict recs h0 i j ri rj :
  parsed item_dict recs →
  i < j → recs !! i = Some ri → recs !! j = Some rj →
  item ri = item rj → aspects ri = aspects rj →
  (∃ r res hf,
     load_aspects item_dict h0 = inr (r, hf) ∧
     hf !! r = Some (ListO res) ∧ NoDup res ∧
     ∃ l e,
       l ∈ res ∧ val hf l = Some e ∧
       item e = item ri ∧ aspects e = aspects ri ∧
       (∀ l' e', l' ∈ res → val hf l' = Some e' →
          item e' = item ri → aspects e' = aspects ri → l' = l) ∧
       data e = Some (concat (marker <$> filter (λ rec, cls rec = cls ri) recs)) ∧
       (filter (λ rec, cls rec = cls ri) recs = [ri; rj] →
        data e = Some (marker ri ++ marker rj)))
  ∧ (∃ hf,
       load_aspects water [] = inr (2, hf) ∧
       hf !! 2 = Some (ListO [0]) ∧
       val hf 0 = Some (mkItem "Water" (Some ["None"; "bucket"]) {["aqua" := 2%Z]})).
Proof.
  intros Hp Hij Hi Hj Hname Hasp. split; [|by eexists; vm_compute].
  destruct (load_spec item_dict recs h0 Hp)
    as (r & res & hf & Hrun & Hr & Hnd & Hinj & Hrepr & Hdata).
  exists r, res, hf. do 3 (split; [done|]).
  destruct (Hrepr ri) as (l & e & Hl & He & Hc); [by eapply list_elem_of_lookup_2|].
  exists l, e. split; [done|]. split; [done|].
  pose proof (proj1 (cls_eq _ _) Hc) as [Hn Ha]. split; [done|]. split; [done|]. split.
  - intros l' e' Hl' He' Hn' Ha'. eapply Hinj; [done..|].
    apply cls_eq. split; congruence.
  - destruct (Hdata l Hl) as (e0 & He0 & _ & Hd).
    assert (e0 = e) as -> by congruence. rewrite Hd, Hc.
    assert (variants (filter (λ rec, cls rec = cls ri) recs)
            = Some (concat (marker <$> filter (λ rec, cls rec = cls ri) recs)))
      as Hvar.
    { apply variants_many. eapply (filter_two _ recs i j ri rj); [done..|].
      symmetry. by apply cls_eq. }
    split; [done|]. intros Hpair. rewrite Hvar, Hpair. simpl.
    by rewrite app_nil_r.
Qed.

Lemma merge_correct_witness :
  (∃ r res hf,
     load_aspects water [] = inr (r, hf) ∧
     hf !! r = Some (ListO res) ∧ NoDup res ∧
     ∃ l e,
       l ∈ res ∧ val hf l = Some e ∧
       item e = item water_plain ∧ aspects e = aspects water_plain ∧
       (∀ l' e', l' ∈ res → val hf l' = Some e' →
          item e' = item water_plain → aspects e' = aspects water_plain →
          l' = l) ∧
       data e = Some (concat (marker <$>
         filter (λ rec, cls rec = cls water_plain) [water_plain; water_bucket])) ∧
       (filter (λ rec, cls rec = cls water_plain) [water_plain; water_bucket]
          = [water_plain; water_bucket] →
        data e = Some (marker water_plain ++ marker water_bucket)))
  ∧ (∃ hf,
       load_aspects water [] = inr (2, hf) ∧
       hf !! 2 = Some (ListO [0]) ∧
       val hf 0 = Some (mkItem "Water" (Some ["None"; "bucket"]) {["aqua" := 2%Z]})).
Proof.
  apply (merge_correct water [water_plain; water_bucket] [] 0 1
           water_plain water_bucket);
    [repeat constructor; by vm_compute|lia|reflexivity..].
Defined.

(** C5.  The result of the normalisation has no two entries with the same
    name and the same attributes; two records with the same canonical name
    and different attributes are in two different entries of the result,
    both of this name. *)
Theorem normal_form item_dict recs h0 :
  parsed item_dict recs →
  ∃ r res hf,
    load_aspects item_dict h0 = inr (r, hf) ∧
    hf !! r = Some (ListO res) ∧ NoDup res ∧
    (∀ l1 l2 e1 e2, l1 ∈ res → l2 ∈ res →
       val hf l1 = Some e1 → val hf l2 = Some e2 →
       item e1 = item e2 → aspects e1 = aspects e2 → l1 = l2) ∧
    (∀ r1 r2, r1 ∈ recs → r2 ∈ recs →
       item r1 = item r2 → aspects r1 ≠ aspects r2 →
       ∃ l1 l2 e1 e2,
         l1 ∈ res ∧ l2 ∈ res ∧ l1 ≠ l2 ∧
         val hf l1 = Some e1 ∧ val hf l2 = Some e2 ∧
         item e1 = item r1 ∧ item e2 = item r1 ∧
         aspects e1 = aspects r1 ∧ aspects e2 = aspects r2).
Proof.
  intros Hp. destruct (load_spec item_dict recs h0 Hp)
    as (r & res & hf & Hrun & Hr & Hnd & Hinj & Hrepr & Hdata).
  exists r, res, hf. do 3 (split; [done|]). split.
  - intros l1 l2 e1 e2 Hl1 Hl2 He1 He2 Hn Ha. eapply Hinj; [done..|].
    by apply cls_eq.
  - intros r1 r2 Hr1 Hr2 Hn Ha.
    destruct (Hrepr r1 Hr1) as (l1 & e1 & Hl1 & He1 & [Hn1 Ha1]%cls_eq).
    destruct (Hrepr r2 Hr2) as (l2 & e2 & Hl2 & He2 & [Hn2 Ha2]%cls_eq).
    exists l1, l2, e1, e2. repeat split; try done; [|congruence].
    intros ->. congruence.
Qed.

Lemma normal_form_witness :
  ∃ r res hf,
    load_aspects waters [] = inr (r, hf) ∧
    hf !! r = Some (ListO res) ∧ NoDup res ∧
    (∀ l1 l2 e1 e2, l1 ∈ res → l2 ∈ res →
       val hf l1 = Some e1 → val hf l2 = Some e2 →
       item e1 = item e2 → aspects e1 = aspects e2 → l1 = l2) ∧
    (∀ r1 r2, r1 ∈ [water_plain; water_holy] → r2 ∈ [water_plain; water_holy] →
       item r1 = item r2 → aspects r1 ≠ aspects r2 →
       ∃ l1 l2 e1 e2,
         l1 ∈ res ∧ l2 ∈ res ∧ l1 ≠ l2 ∧
         val hf l1 = Some e1 ∧ val hf l2 = Some e2 ∧
         item e1 = item r1 ∧ item e2 = item r1 ∧
         aspects e1 = aspects r1 ∧ aspects e2 = aspects r2).
Proof.
  apply (normal_form waters [water_plain; water_holy] []).
  repeat constructor; by vm_compute.
Defined.

(** * Further properties *)

(** ** The order of the result of a query *)

(** The filters of one group keep the order of the entries: what the
    group appends to [out0] is a sublist of the entry list, made of
    entries that pass the filters. *)
Lemma extend_found_sub h items xs perfect out0 search :
  h !! items = Some (ListO xs) → entries h xs → entries h out0 →
  ∃ new, extend_found items perfect out0 search h = inr (out0 ++ new, h) ∧
    entries h new ∧ new `sublist_of` xs ∧
    ∀ l, l ∈ new → matches h search perfect l.
Proof.
  intros Hitems Hxs Hout0. unfold extend_found.
  rewrite (bind_inr _ _ _ _ _ (read_list_lookup _ _ _ Hitems)).
  edestruct (for_each_inv (λ pre out,
    ∃ new, out = out0 ++ new ∧ entries h new ∧ new `sublist_of` pre ∧
      ∀ l, l ∈ new → matches h search perfect l)) as (out & Hrun & new & -> & Hnew);
    [| |by rewrite Hrun; exists new].
  - intros pre x post out E (new & -> & Hent & Hsub & Hm).
    assert (is_Some (val h x)) as Hx.
    { eapply Forall_forall in Hxs; [exact Hxs|]. rewrite E.
      apply elem_of_app. right. by left. }
    pose proof Hx as [io Hio].
    rewrite (bind_inr _ _ _ _ _ (read_item_val _ _ _ Hio)).
    assert (∃ new', out0 ++ new = out0 ++ new' ∧ entries h new' ∧
              new' `sublist_of` pre ++ [x] ∧
              ∀ l, l ∈ new' → matches h search perfect l) as Hkeep.
    { exists new. repeat split; [done| |done]. by apply sublist_inserts_r. }
    destruct (has_all search io) eqn:Hall; [|by eexists; split; [reflexivity|]].
    destruct (if perfect then same_len search io else true) eqn:Hlen;
      [|by eexists; split; [reflexivity|]].
    assert (entries h (out0 ++ new)) as Hout by (by apply Forall_app).
    destruct (contains_spec h (out0 ++ new) x Hout Hx) as (b & Hrun & _).
    rewrite (bind_inr _ _ _ _ _ Hrun). eexists. split; [reflexivity|].
    destruct b; [done|]. exists (new ++ [x]). split; [by rewrite app_assoc|].
    split; [apply Forall_app; split; [done|by apply Forall_singleton]|].
    split; [by apply sublist_app|].
    intros l [Hl|Hl]%elem_of_app; [by apply Hm|].
    apply list_elem_of_singleton in Hl as ->. exists io. split; [done|].
    unfold passes. by rewrite Hall, Hlen.
  - exists []. rewrite app_nil_r. repeat split; [by apply Forall_nil_2|done|].
    by intros l ?%elem_of_nil.
Qed.

(** X1.  The result of a query lists, group after group in the order of
    the groups, entries that pass the filters of the group, each part in
    the order of the entry list; the result of a conjunctive query is a
    sublist of the entry list. *)
Theorem search_order h items xs to_find or_find perfect :
  h !! items = Some (ListO xs) → entries h xs →
  ∃ parts,
    search_aspects to_find items or_find perfect h
      = inr (length h, h ++ [ListO (concat parts)]) ∧
    Forall2 (λ g part,
        part `sublist_of` xs ∧ ∀ l, l ∈ part → matches h g perfect l)
      (searches to_find or_find) parts ∧
    (or_find = false → concat parts `sublist_of` xs).
Proof.
  intros Hitems Hxs. unfold search_aspects.
  destruct (for_each_inv (λ gs out,
    entries h out ∧ ∃ parts, out = concat parts ∧
      Forall2 (λ g part,
        part `sublist_of` xs ∧ ∀ l, l ∈ part → matches h g perfect l) gs parts)
    (extend_found items perfect) h (searches to_find or_find) [])
    as (out & Hrun & Hout & parts & -> & Hparts).
  - intros gs g post out E (Hout & parts & -> & Hparts).
    destruct (extend_found_sub h items xs perfect (concat parts) g Hitems Hxs Hout)
      as (new & Hrun & Hnew & Hsub & Hm).
    eexists. split; [exact Hrun|]. split; [by apply Forall_app|].
    exists (parts ++ [new]). split.
    + rewrite concat_app. simpl. by rewrite app_nil_r.
    + apply Forall2_app; [done|]. by repeat constructor.
  - split; [by apply Forall_nil_2|]. exists []. by split; [|constructor].
  - exists parts. rewrite (bind_inr _ _ _ _ _ Hrun). split; [done|]. split; [done|].
    intros ->. simpl in Hparts.
    apply Forall2_cons_inv_l in Hparts as (part & rest & [Hsub _] & Hrest & ->).
    apply Forall2_nil_inv_l in Hrest as ->. simpl. by rewrite app_nil_r.
Qed.

Lemma search_order_witness :
  ∃ parts,
    search_aspects ["ignis"; "aqua"] 2 true false heap_two
      = inr (length heap_two, heap_two ++ [ListO (concat parts)]) ∧
    Forall2 (λ g part,
        part `sublist_of` [0; 1] ∧ ∀ l, l ∈ part → matches heap_two g false l)
      (searches ["ignis"; "aqua"] true) parts ∧
    (true = false → concat parts `sublist_of` [0; 1]).
Proof.
  apply (search_order heap_two 2 [0; 1] ["ignis"; "aqua"] true false);
    [reflexivity|entries_tac].
Defined.

(** ** What a query returns *)

Lemma has_one_iff (search : list string) (it : Item) :
  (∃ a, a ∈ search ∧ has_all [a] it = true) ↔
  ∃ a, a ∈ search ∧ is_Some (aspects it !! a).
Proof.
  split; intros (a & Ha & H); exists a; (split; [done|]).
  - eapply has_all_iff; [exact H|]. by left.
  - apply has_all_iff. by intros b ->%list_elem_of_singleton.
Qed.

(** X2.  Without the exact flag, a conjunctive query returns the entries
    (the first of each combination of fields) that have every requested
    name among their keys, and a disjunctive query those that have at
    least one. *)
Theorem search_matches h items xs to_find or_find :
  h !! items = Some (ListO xs) → entries h xs →
  ∃ res,
    search_aspects to_find items or_find false h
      = inr (length h, h ++ [ListO res]) ∧
    ∀ l, l ∈ res ↔
         first_of h xs l ∧
         ∃ it, val h l = Some it ∧
           if or_find
           then ∃ a, a ∈ to_find ∧ is_Some (aspects it !! a)
           else ∀ a, a ∈ to_find → is_Some (aspects it !! a).
Proof.
  intros Hitems Hxs.
  destruct (search_spec h items xs to_find or_find false Hitems Hxs)
    as (res & Hrun & _ & Hmem).
  exists res. split; [done|]. intros l. rewrite Hmem.
  split; intros (Hf & H); (split; [done|]).
  - destruct H as (g & Hg & it & Hit & Hp). exists it. split; [done|].
    unfold passes in Hp. rewrite andb_true_r in Hp. destruct or_find; simpl in Hg.
    + apply list_elem_of_fmap in Hg as (a & -> & Ha). apply has_one_iff. eauto.
    + apply list_elem_of_singleton in Hg as ->. by apply has_all_iff.
  - destruct H as (it & Hit & H). destruct or_find; simpl.
    + apply has_one_iff in H as (a & Ha & Hp). exists [a].
      split; [by apply (list_elem_of_fmap_2 (λ x, [x]))|]. exists it. split; [done|].
      unfold passes. by rewrite andb_true_r.
    + exists to_find. split; [by left|]. exists it. split; [done|].
      unfold passes. rewrite andb_true_r. by apply has_all_iff.
Qed.

Lemma search_matches_witness :
  ∃ res,
    search_aspects ["ignis"; "aqua"] 2 true false heap_two
      = inr (length heap_two, heap_two ++ [ListO res]) ∧
    ∀ l, l ∈ res ↔
         first_of heap_two [0; 1] l ∧
         ∃ it, val heap_two l = Some it ∧
           ∃ a, a ∈ ["ignis"; "aqua"] ∧ is_Some (aspects it !! a).
Proof.
  apply (search_matches heap_two 2 [0; 1] ["ignis"; "aqua"] true);
    [reflexivity|entries_tac].
Defined.

(** X3.  The entries of a disjunctive query are those of the conjunctive
    queries for the requested names taken one at a time, with the same
    exact flag. *)
Theorem disjunctive_is_union h items xs to_find perfect :
  h !! items = Some (ListO xs) → entries h xs →
  ∃ disj,
    search_aspects to_find items true perfect h
      = inr (length h, h ++ [ListO disj]) ∧
    ∀ l, l ∈ disj ↔
         ∃ a one, a ∈ to_find ∧
           search_aspects [a] items false perfect h
             = inr (length h, h ++ [ListO one]) ∧
           l ∈ one.
Proof.
  intros Hitems Hxs.
  destruct (search_spec h items xs to_find true perfect Hitems Hxs)
    as (disj & Hrun & _ & Hmem).
  exists disj. split; [done|]. intros l. rewrite Hmem. simpl. split.
  - intros (Hf & g & (a & -> & Ha)%list_elem_of_fmap & Hm).
    destruct (search_spec h items xs [a] false perfect Hitems Hxs)
      as (one & Hone & _ & Hmem1).
    exists a, one. split; [done|]. split; [done|]. apply Hmem1.
    split; [done|]. exists [a]. split; [by left|done].
  - intros (a & one & Ha & Hone & Hl).
    destruct (search_spec h items xs [a] false perfect Hitems Hxs)
      as (one' & Hone' & _ & Hmem1).
    assert (one' = one) as ->.
    { rewrite Hone' in Hone. injection Hone as Hone.
      apply app_inv_head in Hone. by injection Hone. }
    apply Hmem1 in Hl as (Hf & g & Hg & Hm). simpl in Hg.
    apply list_elem_of_singleton in Hg as ->. split; [done|].
    exists [a]. split; [by apply (list_elem_of_fmap_2 (λ x, [x]))|done].
Qed.

Lemma disjunctive_is_union_witness :
  ∃ disj,
    search_aspects ["ignis"; "aqua"] 2 true false heap_two
      = inr (length heap_two, heap_two ++ [ListO disj]) ∧
    ∀ l, l ∈ disj ↔
         ∃ a one, a ∈ ["ignis"; "aqua"] ∧
           search_aspects [a] 2 false false heap_two
             = inr (length heap_two, heap_two ++ [ListO one]) ∧
           l ∈ one.
Proof.
  apply (disjunctive_is_union heap_two 2 [0; 1] ["ignis"; "aqua"] false);
    [reflexivity|entries_tac].
Defined.

(** X4.  The exact flag only removes entries: every entry of the result
    of an exact query is in the result of the same query without the
    flag. *)
Theorem exact_narrows h items xs to_find or_find :
  h !! items = Some (ListO xs) → entries h xs →
  ∃ exact plain,
    search_aspects to_find items or_find true h
      = inr (length h, h ++ [ListO exact]) ∧
    search_aspects to_find items or_find false h
      = inr (length h, h ++ [ListO plain]) ∧
    ∀ l, l ∈ exact → l ∈ plain.
Proof.
  intros Hitems Hxs.
  destruct (search_spec h items xs to_find or_find true Hitems Hxs)
    as (exact & He & _ & Hme).
  destruct (search_spec h items xs to_find or_find false Hitems Hxs)
    as (plain & Hp & _ & Hmp).
  exists exact, plain. split; [done|]. split; [done|].
  intros l. rewrite Hme, Hmp. intros (Hf & g & Hg & it & Hit & Hpass).
  split; [done|]. exists g. split; [done|]. exists it. split; [done|].
  unfold passes in *. apply andb_true_iff in Hpass as [-> _]. done.
Qed.

Lemma exact_narrows_witness :
  ∃ exact plain,
    search_aspects ["aqua"] 2 false true heap_two
      = inr (length heap_two, heap_two ++ [ListO exact]) ∧
    search_aspects ["aqua"] 2 false false heap_two
      = inr (length heap_two, heap_two ++ [ListO plain]) ∧
    ∀ l, l ∈ exact → l ∈ plain.
Proof.
  apply (exact_narrows heap_two 2 [0; 1] ["aqua"] false);
    [reflexivity|entries_tac].
Defined.

(** ** The attribute names of a catalogue *)

Lemma keys_of_elem it a : a ∈ keys_of it ↔ is_Some (aspects it !! a).
Proof.
  unfold keys_of. rewrite list_elem_of_fmap. split.
  - intros ([k z] & -> & Hkz). apply elem_of_map_to_list in Hkz. by exists z.
  - intros [z Hz]. exists (a, z). split; [done|]. by apply elem_of_map_to_list.
Qed.

(** A [map] whose function leaves the heap as it is. *)
Lemma map_list_reads {A B} (f : A → M B) h xs :
  (∀ x, x ∈ xs → ∃ y, f x h = inr (y, h)) →
  ∃ ys, map_list f xs h = inr (ys, h) ∧
    Forall2 (λ x y, f x h = inr (y, h)) xs ys.
Proof.
  induction xs as [|x xs IH]; intros Hf; simpl.
  - exists []. by split; [|constructor].
  - destruct (Hf x) as [y Hy]; [by left|].
    destruct IH as (ys & Hrun & Hys); [by intros x' Hx'; apply Hf; right|].
    exists (y :: ys). rewrite (bind_inr _ _ _ _ _ Hy), (bind_inr _ _ _ _ _ Hrun).
    by split; [|constructor].
Qed.

(** X5.  [list_aspects] returns the set of the names that are a key of
    some entry of the list, and leaves the heap as it is. *)
Theorem list_aspects_spec h items xs :
  h !! items = Some (ListO xs) → entries h xs →
  ∃ names,
    list_aspects items h = inr (names, h) ∧
    ∀ a, a ∈ names ↔
         ∃ l it, l ∈ xs ∧ val h l = Some it ∧ is_Some (aspects it !! a).
Proof.
  intros Hitems Hxs. unfold list_aspects.
  rewrite (bind_inr _ _ _ _ _ (read_list_lookup _ _ _ Hitems)).
  destruct (map_list_reads
              (λ a, io ← read_item a; mret (keys_of io)) h xs)
    as (keys & Hrun & Hkeys).
  { intros l Hl. eapply Forall_forall in Hxs as [it Hit]; [|exact Hl].
    exists (keys_of it). by rewrite (bind_inr _ _ _ _ _ (read_item_val _ _ _ Hit)). }
  rewrite (bind_inr _ _ _ _ _ Hrun). eexists. split; [reflexivity|].
  intros a. rewrite elem_of_list_to_set, list_elem_of_In, in_concat.
  split.
  - intros (ks & Hks%list_elem_of_In & Ha%list_elem_of_In).
    apply list_elem_of_lookup in Hks as [i Hi].
    destruct (Forall2_lookup_r _ _ _ _ _ Hkeys Hi) as (l & Hl & Hf).
    assert (l ∈ xs) as Hin by (by eapply list_elem_of_lookup_2).
    eapply Forall_forall in Hxs as [it Hit]; [|exact Hin].
    rewrite (bind_inr _ _ _ _ _ (read_item_val _ _ _ Hit)) in Hf.
    injection Hf as <-. exists l, it. split; [done|]. split; [done|].
    by apply keys_of_elem.
  - intros (l & it & Hl & Hit & Ha).
    apply list_elem_of_lookup in Hl as [i Hi].
    destruct (Forall2_lookup_l _ _ _ _ _ Hkeys Hi) as (ks & Hks & Hf).
    rewrite (bind_inr _ _ _ _ _ (read_item_val _ _ _ Hit)) in Hf.
    injection Hf as <-. exists (keys_of it).
    split; apply list_elem_of_In; [by eapply list_elem_of_lookup_2|].
    by apply keys_of_elem.
Qed.

Lemma list_aspects_spec_witness :
  ∃ names,
    list_aspects 2 heap_two = inr (names, heap_two) ∧
    ∀ a, a ∈ names ↔
         ∃ l it, l ∈ [0; 1] ∧ val heap_two l = Some it ∧
           is_Some (aspects it !! a).
Proof. apply (list_aspects_spec heap_two 2 [0; 1]); [reflexivity|entries_tac]. Defined.

(** X6.  A requested name that [list_aspects] does not list matches
    nothing: a conjunctive query that requests it returns the empty list,
    and a disjunctive query returns what it returns without the names
    that are not listed. *)
Theorem unknown_aspect h items xs names to_find perfect :
  h !! items = Some (ListO xs) → entries h xs →
  list_aspects items h = inr (names, h) →
  ((∃ a, a ∈ to_find ∧ a ∉ names) →
   search_aspects to_find items false perfect h
     = inr (length h, h ++ [ListO []])) ∧
  ∃ all known,
    search_aspects to_find items true perfect h
      = inr (length h, h ++ [ListO all]) ∧
    search_aspects (filter (λ a, a ∈ names) to_find) items true perfect h
      = inr (length h, h ++ [ListO known]) ∧
    ∀ l, l ∈ all ↔ l ∈ known.
Proof.
  intros Hitems Hxs Hnames.
  destruct (list_aspects_spec h items xs Hitems Hxs) as (names' & Hrun & Hin).
  assert (names' = names) as -> by congruence.
  assert (∀ a g l, l ∈ xs → a ∈ g → a ∉ names → ¬ matches h g perfect l) as Hno.
  { intros a g l Hl Ha Hna (it & Hit & Hp). apply Hna, Hin.
    unfold passes in Hp. apply andb_true_iff in Hp as [Hall _].
    exists l, it. split; [done|]. split; [done|]. by eapply has_all_iff. }
  split.
  - intros (a & Ha & Hna).
    destruct (search_spec h items xs to_find false perfect Hitems Hxs)
      as (res & Hres & _ & Hmem).
    destruct res as [|l res]; [done|]. exfalso.
    destruct (proj1 (Hmem l)) as (Hf & g & Hg & Hm); [by left|].
    simpl in Hg. apply list_elem_of_singleton in Hg as ->.
    eapply Hno; [by eapply first_of_elem|exact Ha|exact Hna|exact Hm].
  - destruct (search_spec h items xs to_find true perfect Hitems Hxs)
      as (all & Hall & _ & Hma).
    destruct (search_spec h items xs (filter (λ a, a ∈ names) to_find) true
                perfect Hitems Hxs) as (known & Hknown & _ & Hmk).
    exists all, known. split; [done|]. split; [done|].
    intros l. rewrite Hma, Hmk. simpl.
    split; intros (Hf & g & (a & -> & Ha)%list_elem_of_fmap & Hm); (split; [done|]).
    + exists [a]. split; [|done]. apply (list_elem_of_fmap_2 (λ x, [x])).
      apply list_elem_of_filter. split; [|done].
      destruct (decide (a ∈ names)) as [|Hna]; [done|].
      exfalso. eapply Hno; [by eapply first_of_elem| |exact Hna|exact Hm]. by left.
    + exists [a]. split; [|done]. apply (list_elem_of_fmap_2 (λ x, [x])).
      by apply list_elem_of_filter in Ha as [_ Ha].
Qed.

Lemma unknown_aspect_witness :
  ((∃ a, a ∈ ["aqua"; "terra"] ∧ a ∉ list_to_set (C:=gset string) ["ignis"; "aqua"]) →
   search_aspects ["aqua"; "terra"] 2 false false heap_two
     = inr (length heap_two, heap_two ++ [ListO []])) ∧
  ∃ all known,
    search_aspects ["aqua"; "terra"] 2 true false heap_two
      = inr (length heap_two, heap_two ++ [ListO all]) ∧
    search_aspects
      (filter (λ a, a ∈ list_to_set (C:=gset string) ["ignis"; "aqua"])
         ["aqua"; "terra"]) 2 true false heap_two
      = inr (length heap_two, heap_two ++ [ListO known]) ∧
    ∀ l, l ∈ all ↔ l ∈ known.
Proof.
  apply (unknown_aspect heap_two 2 [0; 1]
           (list_to_set ["ignis"; "aqua"]) ["aqua"; "terra"] false);
    [reflexivity|entries_tac|by vm_compute].
Defined.

(** ** The anatomy of a raw name *)

Lemma drop_app_length pre v : PyStr.drop (String.length pre) (pre +:+ v) = v.
Proof. by induction pre. Qed.

(** Where the separator occurs, [partition] cuts at its first
    occurrence: the three parts make up the string, and no occurrence
    starts earlier. *)
Lemma partition_found sep s :
  sep ≠ "" → PyStr.occurs sep s = true →
  ∃ a b, PyStr.partition sep s = (a, sep, b) ∧ s = a +:+ sep +:+ b ∧
    ∀ a' b', s = a' +:+ sep +:+ b' → String.length a ≤ String.length a'.
Proof.
  intros Hsep. induction s as [|c s IH].
  - destruct sep; [done|]. by rewrite occurs_unfold.
  - rewrite occurs_unfold, partition_cons.
    destruct (PyStr.startswith (String c s) sep) eqn:E.
    + intros _. apply startswith_true in E as [v E]. exists "", v.
      rewrite E, drop_app_length. split; [done|]. split; [done|]. simpl. lia.
    + rewrite orb_false_l. intros (a & b & Hp & -> & Hmin)%IH.
      exists (String c a), b. rewrite Hp. split; [done|]. split; [done|].
      intros [|c' a'] b' Heq.
      * change ("" +:+ sep +:+ b') with (sep +:+ b') in Heq.
        rewrite Heq, startswith_app in E. done.
      * change (String c' a' +:+ sep +:+ b') with (String c' (a' +:+ sep +:+ b')) in Heq.
        injection Heq as -> Heq. simpl.
        specialize (Hmin a' b' Heq). lia.
Qed.

Lemma partition_not_found sep s :
  sep ≠ "" → PyStr.occurs sep s = false → PyStr.partition sep s = (s, "", "").
Proof.
  intros Hsep. induction s as [|c s IH].
  - destruct sep; [done|]. done.
  - rewrite occurs_unfold, partition_cons.
    intros [-> Hs]%orb_false_elim. by rewrite (IH Hs).
Qed.

(** X7.  The entry that [from_raw] builds from a raw name: without a
    separator in the raw name, the name is the raw name and there is no
    variant; with one, the raw name is the name, the separator and the
    rest, cut at the first separator, and the rest is the one variant,
    unless it is empty. *)
Theorem from_raw_name name asp h l h' :
  from_raw name asp h = inr (l, h') →
  ∃ it, val h' l = Some it ∧
    if PyStr.occurs " --- " name
    then ∃ v, name = item it +:+ " --- " +:+ v ∧
           (∀ a' b', name = a' +:+ " --- " +:+ b' →
              String.length (item it) ≤ String.length a') ∧
           data it = (if decide (v = "") then None else Some [v])
    else item it = name ∧ data it = None.
Proof.
  unfold from_raw, raw_fields.
  destruct (PyStr.occurs " --- " name) eqn:Hocc.
  - destruct (partition_found " --- " name) as (a & b & -> & Hname & Hmin); [done..|].
    destruct (dict_comp asp ∅) as [e|d]; [done|]. intros [= <- <-].
    eexists. split; [unfold val; by rewrite list_lookup_middle|]. simpl.
    exists b. split; [done|]. split; [done|]. by destruct b.
  - rewrite (partition_not_found " --- " name) by done.
    destruct (dict_comp asp ∅) as [e|d]; [done|]. intros [= <- <-].
    eexists. split; [unfold val; by rewrite list_lookup_middle|]. done.
Qed.

Lemma from_raw_name_witness :
  ∃ it, val [ItemO water_bucket] 0 = Some it ∧
    if PyStr.occurs " --- " "Water --- bucket"
    then ∃ v, "Water --- bucket" = item it +:+ " --- " +:+ v ∧
           (∀ a' b', "Water --- bucket" = a' +:+ " --- " +:+ b' →
              String.length (item it) ≤ String.length a') ∧
           data it = (if decide (v = "") then None else Some [v])
    else item it = "Water --- bucket" ∧ data it = None.
Proof.
  apply (from_raw_name "Water --- bucket" ["2 aqua"] [] 0 [ItemO water_bucket]).
  by vm_compute.
Defined.

(** ** The exception of a malformed catalogue *)

Lemma weight_good w : ¬ bad_weight w → ∃ k z, weight w = inr (k, z).
Proof.
  intros Hw. pose proof (weight_spec w) as H.
  destruct (weight w) as [e|[k z]]; [done|by eauto].
Qed.

Lemma weight_exception w :
  bad_weight w →
  weight w = inl (if PyStr.occurs " " w then ValueError else IndexError).
Proof.
  intros Hw. unfold weight, PyStr.split1.
  destruct (PyStr.occurs " " w) eqn:Hocc.
  - destruct (partition_space_found w Hocc) as (-> & _ & _). simpl.
    destruct Hw as [?|Hw]; [congruence|]. by rewrite Hw.
  - by rewrite (partition_space_absent w Hocc).
Qed.

Lemma dict_comp_exception good w rest d :
  Forall (λ w, ¬ bad_weight w) good → bad_weight w →
  dict_comp (good ++ w :: rest) d
    = inl (if PyStr.occurs " " w then ValueError else IndexError).
Proof.
  intros Hgood Hw. revert d.
  induction Hgood as [|x good Hx Hgood IH]; intros d; simpl.
  - by rewrite (weight_exception w Hw).
  - destruct (weight_good x Hx) as (k & z & ->). apply IH.
Qed.

(** X8.  The exception of [from_raw] is that of the first weight string
    that is malformed: [IndexError] when it has no space, [ValueError]
    when the text before its first space is not an integer. *)
Theorem from_raw_exception name good w rest h :
  Forall (λ w, ¬ bad_weight w) good → bad_weight w →
  from_raw name (good ++ w :: rest) h
    = inl (if PyStr.occurs " " w then ValueError else IndexError).
Proof.
  intros Hgood Hw. unfold from_raw, raw_fields.
  destruct (PyStr.partition " --- " name) as [[n m] dat].
  by rewrite (dict_comp_exception good w rest ∅ Hgood Hw).
Qed.

Lemma from_raw_exception_witness :
  from_raw "Water" (["2 aqua"] ++ "two ignis" :: ["terra"]) []
    = inl (if PyStr.occurs " " "two ignis" then ValueError else IndexError).
Proof.
  apply (from_raw_exception "Water" ["2 aqua"] "two ignis" ["terra"] []).
  - repeat constructor. intros [H|H]; vm_compute in H; discriminate.
  - right. reflexivity.
Defined.

(** X9.  The exception of [load_aspects] is that of the first record, in
    the order of the catalogue, for which [from_raw] raises one; the
    records after it do not matter. *)
Theorem load_exception ok recs pair rest e h :
  parsed ok recs → raw_fields pair.1 pair.2 = inl e →
  load_aspects (ok ++ pair :: rest) h = inl e.
Proof.
  intros Hok Hpair. unfold load_aspects. apply bind_inl. revert h.
  induction Hok as [|p r ok recs Hr Hok IH]; intros h; simpl.
  - apply bind_inl. unfold from_raw. by rewrite Hpair.
  - assert (from_raw p.1 p.2 h = inr (length h, h ++ [ItemO r])) as Hf
      by (unfold from_raw; by rewrite Hr).
    rewrite (bind_inr _ _ _ _ _ Hf). apply bind_inl. apply IH.
Qed.

Lemma load_exception_witness :
  load_aspects ([("Water", ["2 aqua"])] ++ ("Lava", ["ignis"]) :: [("Ice", ["x y"])]) []
    = inl IndexError.
Proof.
  apply (load_exception [("Water", ["2 aqua"])] [water_plain] ("Lava", ["ignis"])
           [("Ice", ["x y"])] IndexError []).
  - repeat constructor; by vm_compute.
  - by vm_compute.
Defined.

(** ** Catalogues without repeated names *)

Lemma raw_names h0 recs :
  (λ l, item <$> val (h0 ++ (ItemO <$> recs)) l) <$> seq (length h0) (length recs)
    = Some <$> (item <$> recs).
Proof.
  revert h0. induction recs as [|r recs IH]; intros h0; [done|].
  simpl. f_equal.
  - unfold val. by rewrite list_lookup_middle.
  - specialize (IH (h0 ++ [ItemO r])).
    rewrite length_app, <- app_assoc, Nat.add_1_r in IH. exact IH.
Qed.

(** X10.  When no two records have the same canonical name, nothing is
    merged: [load_aspects] returns the entries that [from_raw] builds, in
    the order of the catalogue, and the heap holds these entries and the
    list of them besides what it held. *)
Theorem load_distinct_names item_dict recs h0 :
  parsed item_dict recs → NoDup (item <$> recs) →
  load_aspects item_dict h0
    = inr (length h0 + length recs,
           h0 ++ (ItemO <$> recs) ++ [ListO (seq (length h0) (length recs))]).
Proof.
  intros Hp Hnames. unfold load_aspects.
  rewrite (bind_inr _ _ _ _ _ (map_list_from_raw _ _ h0 Hp)).
  set (h1 := h0 ++ (ItemO <$> recs)). set (raw := seq (length h0) (length recs)).
  pose proof (raw_vals h0 recs) as Hvals. fold h1 raw in Hvals.
  assert (NoDup ((λ l, item <$> val h1 l) <$> raw)) as Hnd.
  { unfold h1, raw. rewrite raw_names. apply NoDup_fmap; [|done].
    by intros ?? [=]. }
  destruct (for_each_inv (λ pre out,
      Forall2 (λ l kv, item <$> val h1 l = Some kv.1 ∧ kv.2 = [l]) pre out)
    dedupe h1 raw []) as (out & Hrun & Hout); [|constructor|].
  - intros pre x post out E Hout.
    assert (is_Some (val h1 x)) as [xo Hx].
    { assert (x ∈ raw) as Hin by (rewrite E; apply elem_of_app; right; by left).
      apply list_elem_of_lookup in Hin as [i Hi].
      destruct (Forall2_lookup_l _ _ _ _ _ Hvals Hi) as (r & _ & Hr). by exists r. }
    unfold dedupe. rewrite (bind_inr _ _ _ _ _ (read_item_val _ _ _ Hx)).
    destruct (dict_get out (item xo)) as [vl|] eqn:Hget.
    + exfalso. apply dict_get_Some, list_elem_of_lookup in Hget as [i Hi].
      destruct (Forall2_lookup_r _ _ _ _ _ Hout Hi) as (l & Hl & Hk & _).
      simpl in Hk. rewrite E, fmap_app in Hnd.
      apply NoDup_app in Hnd as (_ & Hdisj & _).
      apply (Hdisj (item <$> val h1 l)).
      * apply list_elem_of_fmap. exists l. split; [done|].
        by eapply list_elem_of_lookup_2.
      * rewrite Hk, fmap_cons, Hx. by left.
    + rewrite (dict_set_absent _ _ _ Hget). eexists. split; [reflexivity|].
      apply Forall2_app; [done|]. constructor; [|constructor]. by rewrite Hx.
  - rewrite (bind_inr _ _ _ _ _ Hrun).
    assert (concat out.*2 = raw) as Hcat.
    { clear -Hout. induction Hout as [|l [k vl] pre out [_ Hvl] _ IH]; [done|].
      simpl in Hvl. subst vl. simpl. f_equal. exact IH. }
    rewrite Hcat. unfold alloc, h1. rewrite length_app, length_fmap, <- app_assoc. done.
Qed.

Lemma load_distinct_names_witness :
  load_aspects [("Water", ["2 aqua"]); ("Lava --- hot", ["1 ignis"; "2 aqua"])] []
    = inr (length (@nil Obj) + length [water_plain; mkItem "Lava" (Some ["hot"]) (aspects lava)],
           [] ++ (ItemO <$> [water_plain; mkItem "Lava" (Some ["hot"]) (aspects lava)])
              ++ [ListO (seq (length (@nil Obj))
                        (length [water_plain; mkItem "Lava" (Some ["hot"]) (aspects lava)]))]).
Proof.
  apply (load_distinct_names
           [("Water", ["2 aqua"]); ("Lava --- hot", ["1 ignis"; "2 aqua"])]
           [water_plain; mkItem "Lava" (Some ["hot"]) (aspects lava)] []).
  - repeat constructor; by vm_compute.
  - apply (bool_decide_unpack _). by vm_compute.
Defined.

(** ** The size of the result of the normalisation *)

Lemma raw_fields_data name asp it :
  raw_fields name asp = inr it → length (marker it) = 1.
Proof.
  unfold raw_fields. destruct (PyStr.partition " --- " name) as [[n m] dat].
  destruct (dict_comp asp ∅) as [e|d]; [done|]. intros [= <-].
  unfold marker. simpl. by destruct dat.
Qed.

Lemma parsed_marker item_dict recs rec :
  parsed item_dict recs → rec ∈ recs → length (marker rec) = 1.
Proof.
  intros Hp [i Hi]%list_elem_of_lookup.
  destruct (Forall2_lookup_r _ _ _ _ _ Hp Hi) as (pair & _ & Hrec).
  by eapply raw_fields_data.
Qed.

Lemma length_markers rs :
  Forall (λ r, length (marker r) = 1) rs →
  length (concat (marker <$> rs)) = length rs.
Proof.
  induction 1 as [|r rs Hr _ IH]; [done|].
  rewrite fmap_cons.
  change (concat (marker r :: (marker <$> rs)))
    with (marker r ++ concat (marker <$> rs)).
  rewrite length_app, Hr, IH. done.
Qed.

(** X11.  An entry of the result has as many variants as there are
    records with its name and its attributes, the marker ["None"]
    counted; an entry without variants stands for a single record. *)
Theorem variants_count item_dict recs h0 :
  parsed item_dict recs →
  ∃ r res hf,
    load_aspects item_dict h0 = inr (r, hf) ∧
    hf !! r = Some (ListO res) ∧
    ∀ l, l ∈ res → ∃ e,
      val hf l = Some e ∧
      1 ≤ length (filter (λ rec, cls rec = cls e) recs) ∧
      match data e with
      | Some d => length d = length (filter (λ rec, cls rec = cls e) recs)
      | None => length (filter (λ rec, cls rec = cls e) recs) = 1
      end.
Proof.
  intros Hp. destruct (load_spec item_dict recs h0 Hp)
    as (r & res & hf & Hrun & Hr & _ & _ & _ & Hdata).
  exists r, res, hf. split; [done|]. split; [done|]. intros l Hl.
  destruct (Hdata l Hl) as (e & He & (rec & Hrec & Hc) & Hd).
  exists e. split; [done|].
  assert (Forall (λ r, length (marker r) = 1)
            (filter (λ rec, cls rec = cls e) recs)) as Hone.
  { apply Forall_forall. intros r' [_ Hr']%list_elem_of_filter.
    by eapply parsed_marker. }
  assert (rec ∈ filter (λ rec, cls rec = cls e) recs) as Hin
    by (by apply list_elem_of_filter).
  rewrite Hd. destruct (filter (λ rec, cls rec = cls e) recs) as [|r1 [|r2 rs]] eqn:E.
  - by apply elem_of_nil in Hin.
  - split; [simpl; lia|]. simpl. apply Forall_cons in Hone as [Hr1 _].
    unfold marker in Hr1. by destruct (data r1).
  - split; [simpl; lia|]. change (variants (r1 :: r2 :: rs))
      with (Some (concat (marker <$> r1 :: r2 :: rs))).
    by apply length_markers.
Qed.

Lemma variants_count_witness :
  ∃ r res hf,
    load_aspects water [] = inr (r, hf) ∧
    hf !! r = Some (ListO res) ∧
    ∀ l, l ∈ res → ∃ e,
      val hf l = Some e ∧
      1 ≤ length (filter (λ rec, cls rec = cls e) [water_plain; water_bucket]) ∧
      match data e with
      | Some d =>
          length d
            = length (filter (λ rec, cls rec = cls e) [water_plain; water_bucket])
      | None =>
          length (filter (λ rec, cls rec = cls e) [water_plain; water_bucket]) = 1
      end.
Proof.
  apply (variants_count water [water_plain; water_bucket] []).
  repeat constructor; by vm_compute.
Defined.

Lemma length_remove_dups `{EqDecision A} (l : list A) :
  length (remove_dups l) ≤ length l.
Proof. induction l as [|x l IH]; simpl; [done|]. case_decide; simpl; lia. Qed.

(** X12.  The result has one entry for each combination of name and
    attributes that occurs among the records: as many entries as there
    are different combinations, and never more than there are records. *)
Theorem load_size item_dict recs h0 :
  parsed item_dict recs →
  ∃ r res hf,
    load_aspects item_dict h0 = inr (r, hf) ∧
    hf !! r = Some (ListO res) ∧
    length res = length (remove_dups (cls <$> recs)) ∧
    length res ≤ length item_dict.
Proof.
  intros Hp. destruct (load_spec item_dict recs h0 Hp)
    as (r & res & hf & Hrun & Hr & Hnd & Hinj & Hrepr & Hdata).
  exists r, res, hf. split; [done|]. split; [done|].
  assert ((λ l, cls <$> val hf l) <$> res ≡ₚ Some <$> remove_dups (cls <$> recs))
    as Hperm.
  { apply NoDup_Permutation.
    - apply NoDup_fmap_2_strong; [|done]. intros l1 l2 Hl1 Hl2 Hc.
      destruct (Hdata l1 Hl1) as (e1 & He1 & _). destruct (Hdata l2 Hl2) as (e2 & He2 & _).
      rewrite He1, He2 in Hc. simpl in Hc. eapply Hinj; [done..|]. congruence.
    - apply NoDup_fmap; [by intros ?? [=]|]. apply NoDup_remove_dups.
    - intros c. rewrite !list_elem_of_fmap. split.
      + intros (l & -> & Hl). destruct (Hdata l Hl) as (e & He & (rec & Hrec & Hc) & _).
        exists (cls e). rewrite He. split; [done|].
        apply elem_of_remove_dups, list_elem_of_fmap. by exists rec.
      + intros (c' & -> & Hc'). apply elem_of_remove_dups, list_elem_of_fmap in Hc'
          as (rec & -> & Hrec).
        destruct (Hrepr rec Hrec) as (l & e & Hl & He & Hc). exists l.
        rewrite He. simpl. split; [congruence|done]. }
  apply Permutation_length in Hperm. rewrite !length_fmap in Hperm.
  split; [done|]. rewrite Hperm, (Forall2_length _ _ _ Hp), <- (length_fmap cls recs).
  apply length_remove_dups.
Qed.

Lemma load_size_witness :
  ∃ r res hf,
    load_aspects water [] = inr (r, hf) ∧
    hf !! r = Some (ListO res) ∧
    length res = length (remove_dups (cls <$> [water_plain; water_bucket])) ∧
    length res ≤ length water.
Proof.
  apply (load_size water [water_plain; water_bucket] []).
  repeat constructor; by vm_compute.
Defined.

(** ** Queries over a normalised catalogue *)

(** X13.  A query over the catalogue that [load_aspects] returns drops no
    entry as a duplicate: its result holds exactly the entries of the
    catalogue that pass the filters of one of its groups. *)
Theorem search_loaded item_dict recs h0 to_find or_find perfect :
  parsed item_dict recs →
  ∃ cat xs hf res,
    load_aspects item_dict h0 = inr (cat, hf) ∧
    hf !! cat = Some (ListO xs) ∧
    (items ← load_aspects item_dict;
     search_aspects to_find items or_find perfect) h0
      = inr (length hf, hf ++ [ListO res]) ∧
    ∀ l, l ∈ res ↔
         l ∈ xs ∧ ∃ g, g ∈ searches to_find or_find ∧ matches hf g perfect l.
Proof.
  intros Hp. destruct (load_spec item_dict recs h0 Hp)
    as (cat & xs & hf & Hrun & Hcat & Hnd & Hinj & _ & Hdata).
  assert (entries hf xs) as Hxs.
  { apply Forall_forall. intros l Hl. destruct (Hdata l Hl) as (e & He & _).
    by exists e. }
  destruct (search_spec hf cat xs to_find or_find perfect Hcat Hxs)
    as (res & Hsearch & _ & Hmem).
  exists cat, xs, hf, res. split; [done|]. split; [done|].
  split; [by rewrite (bind_inr _ _ _ _ _ Hrun)|].
  intros l. rewrite Hmem. split; intros [Hl Hm]; (split; [|done]).
  - by eapply first_of_elem.
  - destruct (list_elem_of_split _ _ Hl) as (pre & post & E).
    exists pre, post. split; [done|]. intros l' Hl' Hv.
    destruct (Hdata l Hl) as (e & He & _).
    assert (l' = l) as ->.
    { eapply (Hinj l' l e e); [|done| |done|done].
      - rewrite E. apply elem_of_app. by left.
      - by rewrite Hv. }
    rewrite E in Hnd. apply NoDup_app in Hnd as (_ & Hdisj & _).
    apply (Hdisj l Hl'). by left.
Qed.

Lemma search_loaded_witness :
  ∃ cat xs hf res,
    load_aspects waters [] = inr (cat, hf) ∧
    hf !! cat = Some (ListO xs) ∧
    (items ← load_aspects waters;
     search_aspects ["aqua"] items false false) []
      = inr (length hf, hf ++ [ListO res]) ∧
    ∀ l, l ∈ res ↔
         l ∈ xs ∧ ∃ g, g ∈ searches ["aqua"] false ∧ matches hf g false l.
Proof.
  apply (search_loaded waters [water_plain; water_holy] [] ["aqua"] false false).
  repeat constructor; by vm_compute.
Defined.

(** ** The order of the result of the normalisation *)

Lemma bind_inv {A B} (m : M A) (k : A → M B) h y h2 :
  (m ≫= k) h = inr (y, h2) →
  ∃ x h1, m h = inr (x, h1) ∧ k x h1 = inr (y, h2).
Proof.
  unfold mbind, M_bind. destruct (m h) as [e|[x h1]]; [done|]. eauto.
Qed.

(** What one turn of the loop does to [out]. *)
Lemma dedupe_shape out x h out' h' xo :
  val h x = Some xo → dedupe out x h = inr (out', h') →
  (out' = out ∧ is_Some (dict_get out (item xo)))
  ∨ (∃ vl, dict_get out (item xo) = Some vl ∧
       out' = dict_set out (item xo) (vl ++ [x]))
  ∨ (dict_get out (item xo) = None ∧ out' = out ++ [(item xo, [x])]).
Proof.
  intros Hx. unfold dedupe. rewrite (bind_inr _ _ _ _ _ (read_item_val _ _ _ Hx)).
  destruct (dict_get out (item xo)) as [vl|] eqn:Hget.
  - intros ([] & h2 & _ & Hret)%bind_inv; injection Hret as <- <-.
    + left. by split; [|eexists].
    + right. left. by exists vl.
  - intros [= <- <-]. right. right. split; [done|]. by apply dict_set_absent.
Qed.

Lemma dict_get_split {V} (d : list (string * V)) k v :
  dict_get d k = Some v →
  ∃ d1 d2, d = d1 ++ (k, v) :: d2 ∧
    ∀ v', dict_set d k v' = d1 ++ (k, v') :: d2.
Proof.
  induction d as [|[k0 v0] d IH]; simpl; [done|].
  destruct (decide (k0 = k)) as [->|Hne].
  - intros [= ->]. by exists [], d.
  - intros (d1 & d2 & -> & Hset)%IH. exists ((k0, v0) :: d1), d2.
    split; [done|]. intros v'. simpl. by rewrite Hset.
Qed.

Lemma StronglySorted_mono {A} (R R' : relation A) l :
  (∀ a b, R a b → R' a b) → StronglySorted R l → StronglySorted R' l.
Proof.
  intros HR. induction l as [|x l IH]; [constructor|].
  rewrite !StronglySorted_cons. intros [Hx Hl]. split; [|by apply IH].
  eapply Forall_impl; [exact Hx|]. intros b. apply HR.
Qed.

Lemma before_mono h1 pre x a b :
  (∀ l, l ∈ pre → l < x) → before h1 pre a b → before h1 (pre ++ [x]) a b.
Proof.
  intros Hlt [Hsame Hdiff]. split; [done|]. intros Hne.
  destruct (Hdiff Hne) as (l0 & Hl0 & Hn0 & Hmin). exists l0.
  split; [apply elem_of_app; by left|]. split; [done|].
  intros l' [Hl'|Hl']%elem_of_app Hn'; [by apply Hmin|].
  apply list_elem_of_singleton in Hl' as ->. by apply Hlt.
Qed.

Lemma before_to_same_name h1 pre a v x :
  before h1 pre a v → name_at h1 v = name_at h1 x →
  name_at h1 a ≠ name_at h1 x → before h1 pre a x.
Proof.
  intros [_ Hdiff] Hvx Hne. split; [done|]. intros _.
  rewrite <- Hvx in Hne |- *. by apply Hdiff.
Qed.

Lemma before_from_same_name h1 pre v x b :
  before h1 pre v b → name_at h1 v = name_at h1 x →
  name_at h1 x ≠ name_at h1 b → before h1 pre x b.
Proof.
  intros [_ Hdiff] Hvx Hne. split; [done|]. intros _.
  rewrite <- Hvx in Hne |- *. by apply Hdiff.
Qed.

Section order.
Variables (h1 : Heap) (raw : list loc).
Hypothesis raw_NoDup : NoDup raw.
Hypothesis raw_entries : entries h1 raw.
Hypothesis raw_sorted : StronglySorted lt raw.

(** One turn of the loop keeps the order. *)
Lemma order_step pre x post out out' h h' :
  raw = pre ++ x :: post →
  dedupe_inv h1 pre out h → order_inv h1 pre out →
  dedupe out x h = inr (out', h') → dedupe_inv h1 (pre ++ [x]) out' h' →
  order_inv h1 (pre ++ [x]) out'.
Proof.
  intros Hraw [Hcls Hrest Hkeys Hgroup Hnd Hrepr Hdata] [Hsorted Hne Hfirst] Hrun Hinv'.
  assert (∀ l, l ∈ pre → l < x) as Hlt.
  { intros l Hl. rewrite Hraw in raw_sorted.
    apply StronglySorted_app in raw_sorted as (Hcross & _ & _).
    apply Hcross; [done|by left]. }
  assert (x ∉ pre) as Hxpre by (intros Hx%Hlt; lia).
  assert (is_Some (val h1 x)) as [xo Hx].
  { eapply Forall_forall in raw_entries; [exact raw_entries|]. rewrite Hraw.
    apply elem_of_app. right. by left. }
  assert (val h x = Some xo) as Hxh by (by rewrite Hrest).
  assert (name_at h1 x = Some (item xo)) as Hnx by (unfold name_at; by rewrite Hx).
  assert (∀ l, l ∈ concat out.*2 →
            l ∈ pre ∧ ∃ k, k ∈ out.*1 ∧ name_at h1 l = Some k) as Hin.
  { intros l (k & vl & Hkv & Hl)%elem_of_groups.
    destruct (Hgroup k vl l Hkv Hl) as [Hlp Hk]. split; [done|]. exists k.
    split; [|done]. apply list_elem_of_fmap. by exists (k, vl). }
  assert (StronglySorted (before h1 (pre ++ [x])) (concat out.*2)) as Hsorted'.
  { eapply StronglySorted_mono; [|exact Hsorted]. intros a b. by apply before_mono. }
  assert (∀ l, l ∈ concat out.*2 → ∀ l', l' ∈ pre ++ [x] →
            cls_at h1 l' = cls_at h1 l → l ≤ l') as Hfirst'.
  { intros l Hl l' [Hl'|Hl']%elem_of_app Hc; [by apply Hfirst|].
    apply list_elem_of_singleton in Hl' as ->. apply Hin in Hl as [Hl _].
    apply Hlt in Hl. lia. }
  assert (∀ l', l' ∈ pre ++ [x] → x ∈ concat out'.*2 →
            (∀ l, l ∈ concat out.*2 → l ∈ concat out'.*2) →
            cls_at h1 l' = cls_at h1 x → x ≤ l') as Hfirstx.
  { intros l' [Hl'|Hl']%elem_of_app Hxin Hsub Hc;
      [|apply list_elem_of_singleton in Hl' as ->; lia].
    exfalso. apply Hrepr, list_elem_of_fmap in Hl' as (l'' & Hc' & Hl'').
    assert (l'' = x) as ->.
    { eapply (NoDup_fmap_inj (cls_at h1)); [exact (inv_nodup _ _ _ _ Hinv')| | |].
      - by apply Hsub.
      - done.
      - congruence. }
    by apply Hxpre, Hin. }
  destruct (dedupe_shape out x h out' h' xo Hxh Hrun)
    as [[-> _]|[(vl & Hget & ->)|[Hget ->]]].
  - split; [done|done|]. intros l l' Hl Hl'. by apply Hfirst'.
  - destruct (dict_get_split out (item xo) vl Hget) as (d1 & d2 & Hout & Hset).
    rewrite Hset. rewrite Hout in Hsorted', Hkeys, Hin.
    rewrite !fmap_app, !fmap_cons, !concat_app in *. simpl in *.
    apply NoDup_app in Hkeys as (_ & Hk1 & [Hk2 _]%NoDup_cons).
    assert ((item xo, vl) ∈ out) as Hkv by (by apply dict_get_Some).
    destruct vl as [|v0 vl0] eqn:Evl; [by destruct (Hne _ _ Hkv)|]. rewrite <- Evl in *.
    assert (v0 ∈ vl) as Hv0 by (rewrite Evl; by left).
    assert (∀ v, v ∈ vl → v ∈ pre ∧ name_at h1 v = Some (item xo)) as Hvl.
    { intros v Hv. by apply (Hgroup _ _ _ Hkv Hv). }
    apply StronglySorted_app in Hsorted' as (Hcross1 & Hs1 & Hsorted').
    apply StronglySorted_app in Hsorted' as (Hcross2 & Hsvl & Hs2).
    assert (∀ a, a ∈ concat d1.*2 → before h1 (pre ++ [x]) a x) as Ha.
    { intros a Ha. eapply (before_to_same_name _ _ a v0).
      - apply Hcross1; [done|]. apply elem_of_app. by left.
      - rewrite Hnx. by apply Hvl.
      - destruct (Hin a) as (_ & k & Hk & Hna); [apply elem_of_app; by left|].
        rewrite Hna, Hnx. intros [= ->].
        apply elem_of_groups in Ha as (ka & vla & Hkva & Hla).
        assert (name_at h1 a = Some ka) as Hna'.
        { apply (Hgroup ka vla a); [|done]. rewrite Hout. apply elem_of_app. by left. }
        rewrite Hna in Hna'. injection Hna' as <-.
        apply (Hk1 (item xo)); [|by left]. apply list_elem_of_fmap. by exists (item xo, vla). }
    assert (∀ b, b ∈ concat d2.*2 → before h1 (pre ++ [x]) x b) as Hb.
    { intros b Hb. eapply (before_from_same_name _ _ v0).
      - by apply Hcross2.
      - rewrite Hnx. by apply Hvl.
      - apply elem_of_groups in Hb as (kb & vlb & Hkvb & Hlb).
        assert (name_at h1 b = Some kb) as Hnb.
        { apply (Hgroup kb vlb b); [|done]. rewrite Hout.
          apply elem_of_app. right. by right. }
        rewrite Hnb, Hnx. intros [= <-].
        apply Hk2. apply list_elem_of_fmap. by exists (item xo, vlb). }
    assert (∀ v, v ∈ vl → before h1 (pre ++ [x]) v x) as Hv.
    { intros v [Hvp Hnv]%Hvl. split; [intros _; by apply Hlt|].
      intros Hnn. by rewrite Hnv, Hnx in Hnn. }
    split.
    + rewrite !fmap_app, !fmap_cons, !concat_app. simpl.
      apply StronglySorted_app. split; [|split; [done|]].
      { intros a b Ha' [[Hb'|Hb']%elem_of_app|Hb']%elem_of_app.
        - apply Hcross1; [done|]. apply elem_of_app. by left.
        - apply list_elem_of_singleton in Hb' as ->. by apply Ha.
        - apply Hcross1; [done|]. apply elem_of_app. by right. }
      apply StronglySorted_app. split; [|split; [|done]].
      { intros a b [Ha'|Ha']%elem_of_app Hb'.
        - by apply Hcross2.
        - apply list_elem_of_singleton in Ha' as ->. by apply Hb. }
      apply StronglySorted_app. split; [|split; [done|]].
      { intros a b Ha' ->%list_elem_of_singleton. by apply Hv. }
      repeat constructor.
    + intros k vl' [Hkv'|[[= -> ->]|Hkv']%elem_of_cons]%elem_of_app.
      * apply (Hne k). rewrite Hout. apply elem_of_app. by left.
      * by destruct vl.
      * apply (Hne k). rewrite Hout. apply elem_of_app. right. by right.
    + rewrite <- Hset. intros l l' Hl Hl'.
      rewrite (dict_set_append _ _ _ _ Hget) in Hl.
      apply elem_of_cons in Hl as [->|Hl].
      * apply Hfirstx; [done| |].
        -- rewrite (dict_set_append _ _ _ _ Hget). by left.
        -- intros l Hl. rewrite (dict_set_append _ _ _ _ Hget). by right.
      * by apply Hfirst'.
  - assert (concat (out ++ [(item xo, [x])]).*2 = concat out.*2 ++ [x]) as Hcat.
    { rewrite fmap_app, concat_app. done. }
    apply dict_get_None in Hget.
    split.
    + rewrite Hcat. apply StronglySorted_app. split; [|split; [done|repeat constructor]].
      intros a b Ha ->%list_elem_of_singleton.
      destruct (Hin a Ha) as (Hap & k & Hk & Hna).
      assert (name_at h1 a ≠ name_at h1 x) as Hdiff.
      { rewrite Hna, Hnx. intros [= ->]. done. }
      split; [done|]. intros _. exists a. split; [apply elem_of_app; by left|].
      split; [done|]. intros l' [Hl'|Hl']%elem_of_app Hn'.
      * exfalso. apply Hrepr, list_elem_of_fmap in Hl' as (l'' & Hc & Hl'').
        destruct (Hin l'' Hl'') as (_ & k'' & Hk'' & Hn'').
        assert (name_at h1 l'' = name_at h1 l') as Hsame.
        { unfold name_at, cls_at in *. destruct (val h1 l''), (val h1 l'); simpl in *;
            try done. injection Hc as Hc. unfold cls in Hc. congruence. }
        rewrite Hn', Hnx in Hsame. rewrite Hsame in Hn''. injection Hn'' as Heq.
        by rewrite <- Heq in Hk''.
      * apply list_elem_of_singleton in Hl' as ->. by apply Hlt.
    + intros k vl [Hkv|Hkv]%elem_of_app; [by eapply Hne|].
      apply list_elem_of_singleton in Hkv. by injection Hkv as -> ->.
    + rewrite Hcat. intros l l' [Hl|Hl]%elem_of_app Hl'.
      * by apply Hfirst'.
      * apply list_elem_of_singleton in Hl as ->. apply Hfirstx; [done| |].
        -- rewrite Hcat. apply elem_of_app. right. by left.
        -- intros l Hl. rewrite Hcat. apply elem_of_app. by left.
Qed.

End order.

Lemma seq_sorted n0 n : StronglySorted lt (seq n0 n).
Proof.
  revert n0. induction n as [|n IH]; intros n0; simpl; [constructor|].
  apply StronglySorted_cons. split; [|apply IH].
  apply Forall_forall. intros l [Hl _]%elem_of_seq. lia.
Qed.

Lemma StronglySorted_lookup {A} (R : relation A) l p q a b :
  StronglySorted R l → p < q → l !! p = Some a → l !! q = Some b → R a b.
Proof.
  intros Hs Hpq Hp Hq. rewrite <- (take_drop_middle l q b Hq) in Hs.
  apply StronglySorted_app in Hs as (Hcross & _ & _).
  apply Hcross; [|by left]. apply list_elem_of_lookup. exists p.
  by rewrite lookup_take_lt.
Qed.

(** The record of index [i] is built at the location [length h0 + i]. *)
Lemma raw_val_lookup h0 recs i :
  val (h0 ++ (ItemO <$> recs)) (length h0 + i) = recs !! i.
Proof.
  unfold val. rewrite lookup_app_r by lia.
  replace (length h0 + i - length h0) with i by lia.
  rewrite list_lookup_fmap. by destruct (recs !! i).
Qed.

(** X14.  The order of the result of the normalisation.  The entry of a
    combination of name and attributes is the object built for the first
    record with this combination.  Entries of the same name stand in the
    order of these records, and an entry of one name stands before the
    entries of another name when the first record of the one name comes
    before the first record of the other. *)
Theorem load_order item_dict recs h0 :
  parsed item_dict recs →
  ∃ r idxs hf,
    load_aspects item_dict h0 = inr (r, hf) ∧
    hf !! r = Some (ListO ((λ i, length h0 + i) <$> idxs)) ∧
    (∀ i, i ∈ idxs → ∃ ri e,
       recs !! i = Some ri ∧ val hf (length h0 + i) = Some e ∧
       item e = item ri ∧ aspects e = aspects ri ∧
       ∀ i' r', recs !! i' = Some r' → cls r' = cls ri → i ≤ i') ∧
    (∀ p q i j ri rj,
       p < q → idxs !! p = Some i → idxs !! q = Some j →
       recs !! i = Some ri → recs !! j = Some rj →
       (item ri = item rj → i < j) ∧
       (item ri ≠ item rj →
        ∃ i0 r0, recs !! i0 = Some r0 ∧ item r0 = item ri ∧
          ∀ j' r', recs !! j' = Some r' → item r' = item rj → i0 < j')).
Proof.
  intros Hp. unfold load_aspects.
  rewrite (bind_inr _ _ _ _ _ (map_list_from_raw _ _ h0 Hp)).
  set (h1 := h0 ++ (ItemO <$> recs)). set (raw := seq (length h0) (length recs)).
  pose proof (raw_vals h0 recs) as Hvals. fold h1 raw in Hvals.
  assert (NoDup raw) as Hnd by apply NoDup_seq.
  assert (StronglySorted lt raw) as Hsorted by apply seq_sorted.
  assert (∀ i, val h1 (length h0 + i) = recs !! i) as Hval
    by (intros i; apply raw_val_lookup).
  assert (∀ l, l ∈ raw → ∃ i r, l = length h0 + i ∧ recs !! i = Some r) as Hraw.
  { intros l [Hge Hlt]%elem_of_seq.
    destruct (lookup_lt_is_Some_2 recs (l - length h0)) as [r Hr]; [lia|].
    exists (l - length h0), r. split; [lia|done]. }
  assert (entries h1 raw) as Hent.
  { apply Forall_forall. intros l (i & r & -> & Hr)%Hraw. rewrite Hval. by exists r. }
  destruct (for_each_heap_inv
              (λ pre out h, dedupe_inv h1 pre out h ∧ order_inv h1 pre out)
              dedupe raw [] h1)
    as (out & h' & Hrun & [Hcls Hrest Hkeys Hgroup Hndc Hrepr Hdata]
        & [Hord _ Hfirst]).
  { intros pre x post out h E [Hinv Ho].
    destruct (dedupe_step h1 raw Hnd Hent pre x post out h E Hinv)
      as (out' & h' & Hrun & Hinv').
    exists out', h'. split; [done|]. split; [done|].
    by eapply (order_step h1 raw). }
  { split.
    - split; simpl;
        [done|done|apply NoDup_nil_2|by intros k vl l ?%elem_of_nil
        |apply NoDup_nil_2|by intros l ?%elem_of_nil|by intros l ?%elem_of_nil].
    - split; simpl; [constructor|by intros k vl ?%elem_of_nil
                    |by intros l l' ?%elem_of_nil]. }
  rewrite (bind_inr _ _ _ _ _ Hrun).
  set (res := concat out.*2) in *.
  assert (∀ l, l ∈ res → l ∈ raw) as Hres.
  { intros l (k & vl & Hin & Hl)%elem_of_groups. by apply (Hgroup _ _ _ Hin Hl). }
  assert ((λ i, length h0 + i) <$> ((λ l, l - length h0) <$> res) = res) as Hidx.
  { rewrite <- list_fmap_compose. rewrite <- (list_fmap_id res) at 2.
    apply Forall_fmap_ext_1, Forall_forall. intros l [Hge _]%Hres%elem_of_seq.
    simpl. lia. }
  assert (∀ i, i ∈ (λ l, l - length h0) <$> res → length h0 + i ∈ res) as Hmem.
  { intros i (l & -> & Hl)%list_elem_of_fmap. pose proof (Hres l Hl) as Hr.
    apply elem_of_seq in Hr as [Hge _].
    by replace (length h0 + (l - length h0)) with l by lia. }
  assert (∀ i r, recs !! i = Some r → length h0 + i ∈ raw) as Hrec.
  { intros i r Hi%lookup_lt_Some. apply elem_of_seq. lia. }
  exists (length h'), ((λ l, l - length h0) <$> res), (h' ++ [ListO res]).
  split; [done|]. split; [by rewrite Hidx, list_lookup_middle|]. split.
  - intros i Hi%Hmem.
    destruct (Hraw _ (Hres _ Hi)) as (i' & ri & Heq & Hri).
    assert (i' = i) as -> by lia. clear Heq.
    pose proof (Hcls (length h0 + i)) as Hc. unfold cls_at in Hc.
    rewrite Hval, Hri in Hc. destruct (val h' (length h0 + i)) as [e|] eqn:He; [|done].
    injection Hc as Hn Ha.
    exists ri, e. split; [done|]. split; [by apply val_app|].
    split; [done|]. split; [done|].
    intros j r' Hj Hcj.
    assert (length h0 + i ≤ length h0 + j); [|lia].
    apply Hfirst; [done|by eapply Hrec|]. unfold cls_at. rewrite !Hval, Hj, Hri.
    simpl. by rewrite Hcj.
  - intros p q i j ri rj Hpq Hpi Hqj Hri Hrj.
    assert (res !! p = Some (length h0 + i)) as Hp'.
    { rewrite <- Hidx, list_lookup_fmap, Hpi. done. }
    assert (res !! q = Some (length h0 + j)) as Hq'.
    { rewrite <- Hidx, list_lookup_fmap, Hqj. done. }
    destruct (StronglySorted_lookup _ _ _ _ _ _ Hord Hpq Hp' Hq') as [Hsame Hdiff].
    unfold name_at in Hsame, Hdiff. rewrite !Hval, Hri, Hrj in Hsame, Hdiff.
    simpl in Hsame, Hdiff. split.
    + intros Hn. assert (length h0 + i < length h0 + j); [|lia].
      apply Hsame. by rewrite Hn.
    + intros Hn. destruct Hdiff as (l0 & Hl0 & Hn0 & Hmin); [congruence|].
      destruct (Hraw l0 Hl0) as (i0 & r0 & -> & Hr0). exists i0, r0.
      split; [done|]. rewrite Hval, Hr0 in Hn0. simpl in Hn0.
      split; [congruence|]. intros j' r' Hj' Hnj'.
      assert (length h0 + i0 < length h0 + j'); [|lia].
      apply Hmin; [by eapply Hrec|]. rewrite Hval, Hj'. simpl. by rewrite Hnj'.
Qed.

Lemma load_order_witness :
  ∃ r idxs hf,
    load_aspects waters [] = inr (r, hf) ∧
    hf !! r = Some (ListO ((λ i, length (@nil Obj) + i) <$> idxs)) ∧
    (∀ i, i ∈ idxs → ∃ ri e,
       [water_plain; water_holy] !! i = Some ri ∧
       val hf (length (@nil Obj) + i) = Some e ∧
       item e = item ri ∧ aspects e = aspects ri ∧
       ∀ i' r', [water_plain; water_holy] !! i' = Some r' →
         cls r' = cls ri → i ≤ i') ∧
    (∀ p q i j ri rj,
       p < q → idxs !! p = Some i → idxs !! q = Some j →
       [water_plain; water_holy] !! i = Some ri →
       [water_plain; water_holy] !! j = Some rj →
       (item ri = item rj → i < j) ∧
       (item ri ≠ item rj →
        ∃ i0 r0, [water_plain; water_holy] !! i0 = Some r0 ∧ item r0 = item ri ∧
          ∀ j' r', [water_plain; water_holy] !! j' = Some r' →
            item r' = item rj → i0 < j')).
Proof.
  apply (load_order waters [water_plain; water_holy] []).
  repeat constructor; by vm_compute.
Defined.

(** ** What a query does not depend on *)

Lemma bind_ext {A B} (m : M A) (k1 k2 : A → M B) h :
  (∀ a h', k1 a h' = k2 a h') → (m ≫= k1) h = (m ≫= k2) h.
Proof.
  intros Hk. unfold mbind, M_bind. destruct (m h) as [e|[a h']]; [done|apply Hk].
Qed.

Lemma for_each_ext {A S} (body1 body2 : S → A → M S) xs s h :
  (∀ s x h, body1 s x h = body2 s x h) →
  for_each body1 s xs h = for_each body2 s xs h.
Proof.
  intros Hext. revert s h. induction xs as [|x xs IH]; intros s h; simpl; [done|].
  unfold mbind, M_bind. rewrite Hext. destruct (body2 s x h) as [e|[s' h']]; [done|].
  apply IH.
Qed.

Lemma has_all_same_names (S1 S2 : list string) it :
  (∀ a, a ∈ S1 ↔ a ∈ S2) → has_all S1 it = has_all S2 it.
Proof.
  intros Hsame. apply eq_true_iff_eq. rewrite !has_all_iff.
  split; intros H a Ha; apply H, Hsame, Ha.
Qed.

(** X15.  A conjunctive query depends on the requested names as a set
    only, and with the exact flag on their number besides: two lists of
    the same names, of the same length when the flag is set, give the
    same result, whatever the heap. *)
Theorem conjunctive_names_as_set (S1 S2 : list string) items perfect h :
  (∀ a, a ∈ S1 ↔ a ∈ S2) → (perfect = true → length S1 = length S2) →
  search_aspects S1 items false perfect h
    = search_aspects S2 items false perfect h.
Proof.
  intros Hsame Hlen. unfold search_aspects, searches. simpl.
  assert (extend_found items perfect [] S1 h = extend_found items perfect [] S2 h)
    as Heq; [|unfold mbind, M_bind; by rewrite Heq].
  unfold extend_found. apply bind_ext. intros xs h'.
  apply for_each_ext. intros out i h2. apply bind_ext. intros io h3.
  rewrite (has_all_same_names S1 S2 io Hsame).
  destruct perfect; [|done]. unfold same_len. by rewrite Hlen.
Qed.

Lemma conjunctive_names_as_set_witness :
  search_aspects ["aqua"; "ignis"] 2 false true heap_two
    = search_aspects ["ignis"; "aqua"] 2 false true heap_two.
Proof.
  apply (conjunctive_names_as_set ["aqua"; "ignis"] ["ignis"; "aqua"] 2 true heap_two).
  - intros a. rewrite !elem_of_cons, !elem_of_nil. tauto.
  - reflexivity.
Defined.

(** X16.  A query returns entries of the list it is given, none of them
    twice, and so never more entries than the list holds. *)
Theorem search_within h items xs to_find or_find perfect :
  h !! items = Some (ListO xs) → entries h xs →
  ∃ res,
    search_aspects to_find items or_find perfect h
      = inr (length h, h ++ [ListO res]) ∧
    (∀ l, l ∈ res → l ∈ xs) ∧ NoDup res ∧ length res ≤ length xs.
Proof.
  intros Hitems Hxs.
  destruct (search_spec h items xs to_find or_find perfect Hitems Hxs)
    as (res & Hrun & Hnd & Hmem).
  assert (∀ l, l ∈ res → l ∈ xs) as Hsub.
  { intros l [Hf _]%Hmem. by eapply first_of_elem. }
  assert (NoDup res) as Hnd' by (by eapply NoDup_fmap_1).
  exists res. split; [done|]. split; [done|]. split; [done|].
  by apply submseteq_length, NoDup_submseteq.
Qed.

Lemma search_within_witness :
  ∃ res,
    search_aspects ["ignis"; "aqua"] 2 true false heap_twins
      = inr (length heap_twins, heap_twins ++ [ListO res]) ∧
    (∀ l, l ∈ res → l ∈ [0; 1]) ∧ NoDup res ∧ length res ≤ length [0; 1].
Proof.
  apply (search_within heap_twins 2 [0; 1] ["ignis"; "aqua"] true false);
    [reflexivity|entries_tac].
Defined.
